(** * Triangular matrix power kernel of Eigen's [MatrixPowerBase.h]

    A shallow embedding of [internal::matrix_power_get_pade_degree],
    [internal::matrix_power_unwinder], [internal::binary_powering_cost] and
    the class [MatrixPowerTriangularAtomic] (methods [compute],
    [computePade], [compute2x2], [computeBig]), followed by the properties
    established for them.

    The C++ code is a template over the element type [Scalar] and its real
    companion [RealScalar].  The embedding keeps that shape: the arithmetic,
    the comparisons and the library functions the kernel calls ([std::pow],
    [std::log], [std::exp], [std::sinh], [std::abs], [std::ceil],
    [std::ldexp], [internal::imag], [internal::atanh2]) are the fields of
    type classes, so every generic theorem holds for whatever semantics an
    instance gives them, rounding included.  Five instances are built:
    exact rational arithmetic ([Q], executable), the real numbers of the
    Standard Library, complex numbers over them, scalars that record the
    operations applied to them, and the IEEE binary64 numbers
    (executable). *)

From Stdlib Require Import ZArith QArith Qabs Qround List Bool Lia.
From Stdlib Require Import Reals Qreals Psatz.
From Stdlib Require Import Qpower FunctionalExtensionality.
From Stdlib Require Floats Uint63.
Import ListNotations.

Close Scope Q_scope.
Close Scope R_scope.

(** ** The scalar interface *)

(** Which overload of [matrix_power_get_pade_degree] the C++ compiler picks
    for [RealScalar]. *)
Inductive FloatKind : Type :=
  | KFloat        (* float *)
  | KDouble       (* double *)
  | KLongDouble.  (* long double *)

(** [RealScalar]: a real floating-point type. *)
Class RealOps (RealScalar : Type) : Type := {
  radd : RealScalar -> RealScalar -> RealScalar;
  rsub : RealScalar -> RealScalar -> RealScalar;
  rmul : RealScalar -> RealScalar -> RealScalar;
  rdiv : RealScalar -> RealScalar -> RealScalar;
  ropp : RealScalar -> RealScalar;
  rltb : RealScalar -> RealScalar -> bool;  (* operator<  *)
  rleb : RealScalar -> RealScalar -> bool;  (* operator<= *)
  of_int : Z -> RealScalar;                 (* conversion from int *)
  lit : Q -> RealScalar;                    (* value of a decimal literal *)
  ceil_int : RealScalar -> Z;               (* int n = std::ceil(x) *)
  ldexp : RealScalar -> Z -> RealScalar;    (* std::ldexp *)
  digits : Z;                     (* std::numeric_limits<RealScalar>::digits *)
  float_kind : FloatKind
}.

(** ** Binary values of decimal literals *)

(** [std::frexp] on a rational [n / d]: with [k = log2 |n| - log2 d] the
    magnitude lies between [2^(k-1)] and [2^(k+1)], and one comparison tells
    on which side of [2^k] it is. *)
Definition Qfrexp_exponent (x : Q) : Z :=
  let n := Z.abs (Qnum x) in
  let d := Zpos (Qden x) in
  if (n =? 0)%Z then 0%Z
  else
    let k := (Z.log2 n - Z.log2 d)%Z in
    if (d * 2 ^ Z.max k 0 <=? n * 2 ^ Z.max (- k) 0)%Z then (k + 1)%Z else k.

(** The nearest integer, ties to even. *)
Definition Qround_half_even (y : Q) : Z :=
  let f := Qfloor y in
  match Qcompare (y - inject_Z f) (1 # 2) with
  | Lt => f
  | Gt => (f + 1)%Z
  | Eq => if Z.even f then f else (f + 1)%Z
  end.

(** The nearest number with [prec] significant bits, ties to even, as a
    mantissa [m] and an exponent [e]: the number is [m * 2^e].  The exponent
    is not limited, so this is the rounding of a binary format in its normal
    range. *)
Definition Qround_binary_parts (prec : Z) (x : Q) : Z * Z :=
  let e := (Qfrexp_exponent x - prec)%Z in
  (Qround_half_even (x * Qpower 2 (- e)), e).

Definition Qround_binary (prec : Z) (x : Q) : Q :=
  let (m, e) := Qround_binary_parts prec x in (inject_Z m * Qpower 2 e)%Q.

(** The value a [double] holds once a number is stored in it. *)
Definition Qto_double (x : Q) : Q := Qround_binary 53 x.

(** ** Pade degree selector *)

Section PadeDegree.
Context {RealScalar : Type} `{RealOps RealScalar}.

(** The C++ loop
    [for (; degree <= maxPadeDegree; ++degree)
       if (normIminusT <= maxNormForPade[degree - 3]) break;
     return degree;]
    with [remaining] the number of values of [degree] still to try, that
    is [maxPadeDegree + 1 - degree]. *)
Fixpoint pade_degree_loop (maxNormForPade : list RealScalar) (normIminusT : RealScalar)
         (remaining degree : nat) : nat :=
  match remaining with
  | O => degree
  | S remaining' =>
      if rleb normIminusT (nth (degree - 3) maxNormForPade (of_int 0))
      then degree
      else pade_degree_loop maxNormForPade normIminusT remaining' (S degree)
  end.

Definition pade_degree_for (maxPadeDegree : nat) (maxNormForPade : list RealScalar)
           (normIminusT : RealScalar) : nat :=
  pade_degree_loop maxNormForPade normIminusT (maxPadeDegree + 1 - 3) 3.

(** [maxNormForPade] of the [float] overload. *)
Definition maxNormForPade_float : list RealScalar :=
  map lit [ 2.8064004e-1 (* degree = 3 *); 4.3386528e-1 ]%Q.

(** [maxNormForPade] of the [double] overload (and of [long double] when
    [LDBL_MANT_DIG == 53]). *)
Definition maxNormForPade_double : list RealScalar :=
  map lit [ 1.884160592658218e-2 (* degree = 3 *); 6.038881904059573e-2;
            1.239917516308172e-1; 1.999045567181744e-1;
            2.789358995219730e-1 ]%Q.

(** The long double overload keeps its thresholds in
    [const double maxNormForPade[]]: each literal is rounded to [double]
    when the array is initialised, and the stored [double] is converted
    back, exactly, for the comparison with [normIminusT]. *)
Definition stored_in_double (q : Q) : RealScalar := lit (Qto_double q).

(** The literals of the branch [LDBL_MANT_DIG <= 64]. *)
Definition maxNormForPade_extended_literals : list Q :=
  [ 6.3854693117491799460e-3 (* degree = 3 *);
    2.6394893435456973676e-2; 6.4216043030404063729e-2;
    1.1701165502926694307e-1; 1.7904284231268670284e-1;
    2.4471944416607995472e-1 ]%Q.

(** [LDBL_MANT_DIG <= 64]. *)
Definition maxNormForPade_extended : list RealScalar :=
  map stored_in_double maxNormForPade_extended_literals.

(** The literals of the branch [LDBL_MANT_DIG <= 106]. *)
Definition maxNormForPade_double_double_literals : list Q :=
  [ 1.0007161601787493236741409687186e-4 (* degree = 3 *);
    1.0007161601787493236741409687186e-3;
    4.7069769360887572939882574746264e-3;
    1.3220386624169159689406653101695e-2;
    2.8063482381631737920612944054906e-2;
    4.9625993951953473052385361085058e-2;
    7.7367040706027886224557538328171e-2;
    1.1016843812851143391275867258512e-1 ]%Q.

(** [LDBL_MANT_DIG <= 106]. *)
Definition maxNormForPade_double_double : list RealScalar :=
  map stored_in_double maxNormForPade_double_double_literals.

(** The literals of the last branch (quadruple precision). *)
Definition maxNormForPade_quad_literals : list Q :=
  [ 5.524506147036624377378713555116378e-5 (* degree = 3 *);
    6.640600568157479679823602193345995e-4;
    3.227716520106894279249709728084626e-3;
    9.619593944683432960546978734646284e-3;
    2.134595382433742403911124458161147e-2;
    3.908166513900489428442993794761185e-2;
    6.266780814639442865832535460550138e-2;
    9.134603732914548552537150753385375e-2 ]%Q.

(** Otherwise (quadruple precision). *)
Definition maxNormForPade_quad : list RealScalar :=
  map stored_in_double maxNormForPade_quad_literals.

(** The loop bound of the selected overload; for [long double] the
    preprocessor chooses on [LDBL_MANT_DIG], which is [digits]. *)
Definition maxPadeDegree : nat :=
  match float_kind with
  | KFloat => 4
  | KDouble => 7
  | KLongDouble =>
      if (digits =? 53)%Z then 7
      else if (digits <=? 64)%Z then 8
      else if (digits <=? 106)%Z then 10
      else 10
  end.

(** The table of the selected overload.  With [LDBL_MANT_DIG == 53] a
    long double has the format of [double], and the storage in [double]
    changes no value. *)
Definition maxNormForPade_table : list RealScalar :=
  match float_kind with
  | KFloat => maxNormForPade_float
  | KDouble => maxNormForPade_double
  | KLongDouble =>
      if (digits =? 53)%Z then maxNormForPade_double
      else if (digits <=? 64)%Z then maxNormForPade_extended
      else if (digits <=? 106)%Z then maxNormForPade_double_double
      else maxNormForPade_quad
  end.

(** [internal::matrix_power_get_pade_degree]. *)
Definition matrix_power_get_pade_degree (normIminusT : RealScalar) : nat :=
  pade_degree_for maxPadeDegree maxNormForPade_table normIminusT.

(** The tabulated threshold of a degree, [maxNormForPade[degree - 3]]. *)
Definition pade_threshold (degree : nat) : RealScalar :=
  nth (degree - 3) maxNormForPade_table (of_int 0).

End PadeDegree.

(** ** Exact rational arithmetic *)

Definition Qceil_int (x : Q) : Z := Qceiling x.

Definition Qldexp (x : Q) (e : Z) : Q := (x * Qpower 2 e)%Q.

(** Rationals standing for a real type of the given overload and mantissa
    width; literals are taken at their decimal value. *)
Definition QRealOps (k : FloatKind) (d : Z) : RealOps Q := {|
  radd := Qplus; rsub := Qminus; rmul := Qmult; rdiv := Qdiv; ropp := Qopp;
  rltb := fun a b => negb (Qle_bool b a);
  rleb := Qle_bool;
  of_int := inject_Z;
  lit := fun q => q;
  ceil_int := Qceil_int;
  ldexp := Qldexp;
  digits := d;
  float_kind := k
|}.

Definition Qfloat : RealOps Q := QRealOps KFloat 24.
Definition Qdouble : RealOps Q := QRealOps KDouble 53.
Definition Qextended : RealOps Q := QRealOps KLongDouble 64.
Definition Qdouble_double : RealOps Q := QRealOps KLongDouble 106.
Definition Qquad : RealOps Q := QRealOps KLongDouble 113.

(** ** Matrices and the element interface *)

(** [Scalar]: the element type of the matrix, real or complex. *)
Class ScalarOps (Scalar RealScalar : Type) {RO : RealOps RealScalar} : Type := {
  sadd : Scalar -> Scalar -> Scalar;
  ssub : Scalar -> Scalar -> Scalar;
  smul : Scalar -> Scalar -> Scalar;
  sdiv : Scalar -> Scalar -> Scalar;
  seqb : Scalar -> Scalar -> bool;          (* operator== *)
  s_of_int : Z -> Scalar;                   (* Scalar(n) *)
  rsmul : RealScalar -> Scalar -> Scalar;   (* RealScalar * Scalar *)
  sabs : Scalar -> RealScalar;              (* std::abs *)
  simag : Scalar -> RealScalar;             (* internal::imag *)
  IsComplex : bool;                         (* NumTraits<Scalar>::IsComplex *)
  make_complex : RealScalar -> RealScalar -> Scalar  (* Scalar(re, im) *)
}.

(** The library functions [compute2x2] calls; [internal::atanh2] is declared
    outside this header. *)
Class ElementaryOps (Scalar RealScalar : Type) {RO : RealOps RealScalar}
      {SO : ScalarOps Scalar RealScalar} : Type := {
  spow : Scalar -> RealScalar -> Scalar;    (* std::pow(Scalar, RealScalar) *)
  slog : Scalar -> Scalar;                  (* std::log *)
  sexp : Scalar -> Scalar;                  (* std::exp *)
  ssinh : Scalar -> Scalar;                 (* std::sinh *)
  atanh2 : Scalar -> Scalar -> Scalar       (* internal::atanh2 *)
}.

(** A dense matrix: its dimensions and its coefficients.  Reading outside
    the dimensions is not checked, as with Eigen's [coeff]. *)
Record Matrix (Scalar : Type) : Type := {
  rows : nat;
  cols : nat;
  coeff : nat -> nat -> Scalar
}.

Arguments rows {Scalar} _.
Arguments cols {Scalar} _.
Arguments coeff {Scalar} _ _ _.

(** [m.coeffRef(i,j) = v]. *)
Definition coeffRef_set {Scalar : Type} (m : Matrix Scalar) (i j : nat)
           (v : Scalar) : Matrix Scalar :=
  {| rows := rows m;
     cols := cols m;
     coeff := fun r c => if (r =? i)%nat && (c =? j)%nat then v else coeff m r c |}.

(** The collaborators of the kernel, both declared outside this header. *)

(** [MatrixSquareRootTriangular<MatrixType>(T).compute(sqrtT)]. *)
Class SquareRoot (Scalar : Type) : Type := {
  sqrtTriangular : Matrix Scalar -> Matrix Scalar
}.

(** [U.triangularView<Upper>().solve(B)]. *)
Class TriangularSolver (Scalar : Type) : Type := {
  triangularSolve : Matrix Scalar -> Matrix Scalar -> Matrix Scalar
}.

Section Kernel.
Context {RealScalar Scalar : Type} {RO : RealOps RealScalar}
        {SO : ScalarOps Scalar RealScalar}.

(** [M_PI], a decimal literal of [<cmath>]. *)
Definition M_PI : RealScalar := lit 3.14159265358979323846%Q.

(** [x * r] for a [Scalar] x and a [RealScalar] r. *)
Definition srmul (x : Scalar) (r : RealScalar) : Scalar := rsmul r x.

Definition Identity (r c : nat) : Matrix Scalar :=
  {| rows := r; cols := c;
     coeff := fun i j => if (i =? j)%nat then s_of_int 1 else s_of_int 0 |}.

(** [a - b] and [a + b], coefficient by coefficient. *)
Definition msub (a b : Matrix Scalar) : Matrix Scalar :=
  {| rows := rows a; cols := cols a;
     coeff := fun i j => ssub (coeff a i j) (coeff b i j) |}.

Definition madd (a b : Matrix Scalar) : Matrix Scalar :=
  {| rows := rows a; cols := cols a;
     coeff := fun i j => sadd (coeff a i j) (coeff b i j) |}.

(** [c * m] for a [RealScalar] c. *)
Definition mscale (c : RealScalar) (m : Matrix Scalar) : Matrix Scalar :=
  {| rows := rows m; cols := cols m;
     coeff := fun i j => rsmul c (coeff m i j) |}.

(** [m.triangularView<Upper>()] copied into a dense matrix: the strictly
    lower part reads as zero. *)
Definition upper (m : Matrix Scalar) : Matrix Scalar :=
  {| rows := rows m; cols := cols m;
     coeff := fun i j => if (j <? i)%nat then s_of_int 0 else coeff m i j |}.

(** Eigen's reductions start from the first coefficient. *)
Definition rsum (l : list RealScalar) : RealScalar :=
  match l with
  | [] => of_int 0
  | x :: xs => fold_left radd xs x
  end.

Definition ssum (l : list Scalar) : Scalar :=
  match l with
  | [] => s_of_int 0
  | x :: xs => fold_left sadd xs x
  end.

Definition rmaxCoeff (l : list RealScalar) : RealScalar :=
  match l with
  | [] => of_int 0
  | x :: xs => fold_left (fun m v => if rltb m v then v else m) xs x
  end.

(** [m.cwiseAbs().colwise().sum().maxCoeff()]. *)
Definition colwise_abs_sum (m : Matrix Scalar) (j : nat) : RealScalar :=
  rsum (map (fun i => sabs (coeff m i j)) (seq 0 (rows m))).

Definition colsum_norm (m : Matrix Scalar) : RealScalar :=
  rmaxCoeff (map (colwise_abs_sum m) (seq 0 (cols m))).

(** [m.triangularView<Upper>() * m]. *)
Definition upper_times (m : Matrix Scalar) : Matrix Scalar :=
  {| rows := rows m; cols := cols m;
     coeff := fun i j =>
       ssum (map (fun k => smul (coeff (upper m) i k) (coeff m k j))
                 (seq 0 (cols m))) |}.

Context {EO : ElementaryOps Scalar RealScalar}.

(** [internal::matrix_power_unwinder<Scalar>::run], both specialisations. *)
Definition matrix_power_unwinder (eival eival0 : Scalar) (unwindingNumber : Z)
  : Scalar :=
  if IsComplex
  then sadd (atanh2 (ssub eival eival0) (sadd eival eival0))
            (make_complex (of_int 0) (rmul M_PI (of_int unwindingNumber)))
  else atanh2 (ssub eival eival0) (sadd eival eival0).

(** The three branches of the loop body of [compute2x2]. *)
Inductive SuperDiagCase : Type :=
  | EqualDiagonal      (* if *)
  | WellSeparated      (* else if *)
  | CloseMagnitudes.   (* else *)

(** The tests of lines 334 and 337 on [a = m_A(i-1,i-1)], [b = m_A(i,i)]. *)
Definition superdiag_case (a b : Scalar) : SuperDiagCase :=
  if seqb a b then EqualDiagonal
  else if rltb (rmul (of_int 2) (sabs a)) (sabs b)
          || rltb (rmul (of_int 2) (sabs b)) (sabs a)
  then WellSeparated
  else CloseMagnitudes.

(** [unwindingNumber] of line 341. *)
Definition unwinding_number (logTdiag : nat -> Scalar) (i : nat) : Z :=
  ceil_int (rdiv (rsub (simag (ssub (logTdiag i) (logTdiag (i - 1)))) M_PI)
                 (rmul (of_int 2) M_PI)).

(** The dividend of lines 343-344. *)
Definition close_numerator (A : Matrix Scalar) (logTdiag : nat -> Scalar)
           (p : RealScalar) (i : nat) : Scalar :=
  let unwindingNumber := unwinding_number logTdiag i in
  let w := matrix_power_unwinder (coeff A i i) (coeff A (i - 1) (i - 1))
                                 unwindingNumber in
  smul (smul (srmul (coeff A (i - 1) i) (of_int 2))
             (sexp (rsmul (rmul (lit 0.5%Q) p)
                          (sadd (logTdiag i) (logTdiag (i - 1))))))
       (ssinh (rsmul p w)).

(** The value stored at [res(i-1,i)] in the last branch (lines 341-344). *)
Definition close_superdiag (A : Matrix Scalar) (logTdiag : nat -> Scalar)
           (p : RealScalar) (i : nat) : Scalar :=
  sdiv (close_numerator A logTdiag p i)
       (ssub (coeff A i i) (coeff A (i - 1) (i - 1))).

(** One iteration of the loop of [compute2x2] (lines 333-345). *)
Definition compute2x2_body (A : Matrix Scalar) (logTdiag : nat -> Scalar)
           (p : RealScalar) (res : Matrix Scalar) (i : nat) : Matrix Scalar :=
  let res := coeffRef_set res i i (spow (coeff A i i) p) in
  match superdiag_case (coeff A (i - 1) (i - 1)) (coeff A i i) with
  | EqualDiagonal =>
      coeffRef_set res (i - 1) i
        (rsmul p (spow (coeff A (i - 1) i) (rsub p (of_int 1))))
  | WellSeparated =>
      coeffRef_set res (i - 1) i
        (sdiv (smul (coeff A (i - 1) i)
                    (ssub (coeff res i i) (coeff res (i - 1) (i - 1))))
              (ssub (coeff A i i) (coeff A (i - 1) (i - 1))))
  | CloseMagnitudes =>
      coeffRef_set res (i - 1) i (close_superdiag A logTdiag p i)
  end.

(** [MatrixPowerTriangularAtomic::compute2x2]; [A] is the member [m_A]. *)
Definition compute2x2 (A : Matrix Scalar) (res : Matrix Scalar) (p : RealScalar)
  : Matrix Scalar :=
  let logTdiag := fun k => slog (coeff A k k) in
  let res := coeffRef_set res 0 0 (spow (coeff A 0 0) p) in
  fold_left (compute2x2_body A logTdiag p) (seq 1 (cols A - 1)) res.

Context {TS : TriangularSolver Scalar}.

(** The coefficient of step [i] in [computePade] (line 318). *)
Definition pade_coefficient (p : RealScalar) (i : Z) : RealScalar :=
  if (i =? 1)%Z then ropp p
  else if (Z.land i 1 =? 1)%Z
  then rdiv (rsub (ropp p) (of_int (Z.shiftr i 1))) (of_int (Z.shiftl i 1))
  else rdiv (rsub p (of_int (Z.shiftr i 1))) (of_int (Z.shiftl (i - 1) 1)).

(** The loop [for (--i; i; --i)] of [computePade], counting [i] down. *)
Fixpoint computePade_loop (IminusT : Matrix Scalar) (p : RealScalar) (i : nat)
         (res : Matrix Scalar) : Matrix Scalar :=
  match i with
  | O => res
  | S i' =>
      computePade_loop IminusT p i'
        (triangularSolve
           (upper (madd (Identity (rows IminusT) (cols IminusT)) res))
           (mscale (pade_coefficient p (Z.of_nat i)) IminusT))
  end.

(** [MatrixPowerTriangularAtomic::computePade]. *)
Definition computePade (degree : nat) (IminusT : Matrix Scalar) (p : RealScalar)
  : Matrix Scalar :=
  let i := Z.shiftl (Z.of_nat degree) 1 in
  let res := mscale (rdiv (rsub p (of_int (Z.of_nat degree)))
                          (of_int (Z.shiftl (i - 1) 1))) IminusT in
  let res := computePade_loop IminusT p (Z.to_nat (i - 1)) res in
  madd res (Identity (rows IminusT) (cols IminusT)).

Context {SR : SquareRoot Scalar}.

(** [maxNormForPade] of [computeBig] (lines 353-357). *)
Definition computeBig_maxNormForPade : RealScalar :=
  if (digits <=? 24)%Z then lit 4.3386528e-1%Q
  else if (digits <=? 53)%Z then lit 2.789358995219730e-1%Q
  else if (digits <=? 64)%Z then lit 2.4471944416607995472e-1%Q
  else if (digits <=? 106)%Z then lit 1.1016843812851143391275867258512e-1%Q
  else lit 9.134603732914548552537150753385375e-2%Q.

(** The variables the [while (true)] loop of [computeBig] updates. *)
Record ScalingState : Type := {
  st_T : Matrix Scalar;
  st_numberOfSquareRoots : nat;
  st_hasExtraSquareRoot : bool
}.

(** What the loop leaves for the rest of [computeBig]. *)
Record ScalingResult : Type := {
  sr_degree : nat;
  sr_IminusT : Matrix Scalar;
  sr_numberOfSquareRoots : nat
}.

Inductive LoopStep : Type :=
  | Break (r : ScalingResult)
  | Continue (st : ScalingState).

(** Lines 373-375. *)
Definition take_square_root (st : ScalingState) (hasExtraSquareRoot : bool)
  : ScalingState :=
  {| st_T := upper (sqrtTriangular (st_T st));
     st_numberOfSquareRoots := S (st_numberOfSquareRoots st);
     st_hasExtraSquareRoot := hasExtraSquareRoot |}.

(** One pass through the body of the [while (true)] loop (lines 364-375). *)
Definition scaling_step (A : Matrix Scalar) (st : ScalingState) : LoopStep :=
  let IminusT := msub (Identity (rows A) (cols A)) (st_T st) in
  let normIminusT := colsum_norm IminusT in
  if rltb normIminusT computeBig_maxNormForPade then
    let degree := matrix_power_get_pade_degree normIminusT in
    let degree2 := matrix_power_get_pade_degree (rdiv normIminusT (of_int 2)) in
    if (Z.of_nat degree - Z.of_nat degree2 <=? 1)%Z || st_hasExtraSquareRoot st
    then Break {| sr_degree := degree;
                  sr_IminusT := IminusT;
                  sr_numberOfSquareRoots := st_numberOfSquareRoots st |}
    else Continue (take_square_root st true)
  else Continue (take_square_root st (st_hasExtraSquareRoot st)).

(** The [while (true)] loop; [None] when [fuel] passes do not reach the
    [break]. *)
Fixpoint scaling_loop (fuel : nat) (A : Matrix Scalar) (st : ScalingState)
  : option ScalingResult :=
  match fuel with
  | O => None
  | S fuel' =>
      match scaling_step A st with
      | Break r => Some r
      | Continue st' => scaling_loop fuel' A st'
      end
  end.

(** The state at loop entry (lines 358-361). *)
Definition scaling_init (A : Matrix Scalar) : ScalingState :=
  {| st_T := upper A;
     st_numberOfSquareRoots := 0;
     st_hasExtraSquareRoot := false |}.

(** The loop of lines 379-382. *)
Fixpoint unscale (A : Matrix Scalar) (p : RealScalar)
         (numberOfSquareRoots : nat) (res : Matrix Scalar) : Matrix Scalar :=
  match numberOfSquareRoots with
  | O => res
  | S n' =>
      let res := compute2x2 A res (ldexp p (- Z.of_nat numberOfSquareRoots)) in
      unscale A p n' (upper_times res)
  end.

(** [MatrixPowerTriangularAtomic::computeBig]. *)
Definition computeBig (fuel : nat) (A : Matrix Scalar) (p : RealScalar)
  : option (Matrix Scalar) :=
  match scaling_loop fuel A (scaling_init A) with
  | None => None
  | Some r =>
      let res := computePade (sr_degree r) (sr_IminusT r) p in
      let res := unscale A p (sr_numberOfSquareRoots r) res in
      Some (compute2x2 A res p)
  end.

(** [MatrixPowerTriangularAtomic::compute]. *)
Definition compute (fuel : nat) (A : Matrix Scalar) (res : Matrix Scalar)
           (p : RealScalar) : option (Matrix Scalar) :=
  match rows A with
  | 0 => Some res
  | 1 => Some (coeffRef_set res 0 0 (spow (coeff A 0 0) p))
  | 2 => Some (compute2x2 A res p)
  | _ => computeBig fuel A p
  end.

End Kernel.

(** The state at the start of pass [k] of the [while (true)] loop, when no
    earlier pass has reached the [break]. *)
Fixpoint state_at_pass {RealScalar Scalar : Type} {RO : RealOps RealScalar}
         {SO : ScalarOps Scalar RealScalar} {SR : SquareRoot Scalar}
         (A : Matrix Scalar) (k : nat) : option (@ScalingState Scalar) :=
  match k with
  | O => Some (scaling_init A)
  | S k' =>
      match state_at_pass A k' with
      | Some st =>
          match scaling_step A st with
          | Continue st' => Some st'
          | Break _ => None
          end
      | None => None
      end
  end.

(** ** What the properties assume of the arithmetic

    Facts of the scalar types that hold for IEEE arithmetic as for exact
    arithmetic; each instance below proves them. *)

Class RealLaws (RealScalar : Type) {RO : RealOps RealScalar} : Prop := {
  (* a < b and b <= c give a <= c *)
  rltb_rleb_trans :
    forall a b c : RealScalar,
      rltb a b = true -> rleb b c = true -> rleb a c = true;
  (* 2 * M_PI is positive *)
  two_pi_positive : rltb (of_int 0) (rmul (of_int 2) M_PI) = true;
  (* (0 - M_PI) / (2 * M_PI) is -0.5, whose ceiling is 0 *)
  ceil_minus_half :
    ceil_int (rdiv (rsub (of_int 0) M_PI) (rmul (of_int 2) M_PI)) = 0%Z
}.

Class ScalarLaws (Scalar RealScalar : Type) {RO : RealOps RealScalar}
      {SO : ScalarOps Scalar RealScalar} : Prop := {
  (* b - a == 0 only when a == b *)
  seqb_ssub_zero :
    forall a b : Scalar,
      seqb (ssub b a) (s_of_int 0) = true -> seqb a b = true;
  (* equal numbers have equal magnitudes *)
  seqb_not_separated :
    forall a b : Scalar,
      seqb a b = true ->
      rltb (rmul (of_int 2) (sabs a)) (sabs b) = false /\
      rltb (rmul (of_int 2) (sabs b)) (sabs a) = false;
  (* subtraction of complex numbers is componentwise *)
  simag_ssub :
    forall a b : Scalar, simag (ssub a b) = rsub (simag a) (simag b);
  (* internal::imag of a real Scalar is RealScalar(0) *)
  simag_real :
    IsComplex = false -> forall z : Scalar, simag z = of_int 0
}.

(** ** Real scalars in exact rational arithmetic *)

(** A real [Scalar] type ([IsComplex = 0]): [internal::imag] is zero and
    [Scalar(re, im)] is not used. *)
Definition QScalarOps (RO : RealOps Q) : @ScalarOps Q Q RO := {|
  sadd := Qplus; ssub := Qminus; smul := Qmult; sdiv := Qdiv;
  seqb := Qeq_bool;
  s_of_int := inject_Z;
  rsmul := Qmult;
  sabs := Qabs;
  simag := fun _ => 0%Q;
  IsComplex := false;
  make_complex := fun re _ => re
|}.

(** A 3 x 3 matrix from its rows. *)
Definition matrix3 {Scalar : Type} (zero : Scalar)
           (a00 a01 a02 a10 a11 a12 a20 a21 a22 : Scalar) : Matrix Scalar :=
  {| rows := 3; cols := 3;
     coeff := fun i j =>
       match i, j with
       | 0, 0 => a00 | 0, 1 => a01 | 0, 2 => a02
       | 1, 0 => a10 | 1, 1 => a11 | 1, 2 => a12
       | 2, 0 => a20 | 2, 1 => a21 | 2, 2 => a22
       | _, _ => zero
       end |}.

(** A 2 x 2 matrix from its rows. *)
Definition matrix2 {Scalar : Type} (zero : Scalar) (a00 a01 a10 a11 : Scalar)
  : Matrix Scalar :=
  {| rows := 2; cols := 2;
     coeff := fun i j =>
       match i, j with
       | 0, 0 => a00 | 0, 1 => a01
       | 1, 0 => a10 | 1, 1 => a11
       | _, _ => zero
       end |}.

(** The principal square root of a 3 x 3 upper triangular matrix with unit
    diagonal, by the recurrence [s_ij = (t_ij - sum s_ik s_kj) / (s_ii + s_jj)];
    it is rational, so this collaborator can be run. *)
Definition unit_sqrt3 (t : Matrix Q) : Matrix Q :=
  let s01 := (coeff t 0 1 / 2)%Q in
  let s12 := (coeff t 1 2 / 2)%Q in
  let s02 := ((coeff t 0 2 - s01 * s12) / 2)%Q in
  matrix3 0%Q 1%Q s01 s02 0%Q 1%Q s12 0%Q 0%Q 1%Q.

Definition unit3_square_root : SquareRoot Q := {|
  sqrtTriangular := unit_sqrt3
|}.

(** A bound on the norm of [I - T] for unit upper triangular [T]: the sum of
    the magnitudes above the diagonal, and the product that enters the next
    square root. *)
Definition unit3_potential (T : Matrix Q) : Q :=
  (Qabs (coeff T 0 1) + Qabs (coeff T 1 2) + Qabs (coeff T 0 2)
   + Qabs (coeff T 0 1) * Qabs (coeff T 1 2))%Q.

Definition QdoubleScalarOps : @ScalarOps Q Q Qdouble := QScalarOps Qdouble.

(** ** Scalars that record the operations applied to them

    Each element operation builds the term of its application, so a
    coefficient of the result is the expression the kernel evaluates for it.
    The kernel compares and takes magnitudes of coefficients of [m_A] only,
    which are literals. *)
Inductive Traced : Type :=
  | Lit (q : Q)
  | Add (a b : Traced)
  | Sub (a b : Traced)
  | Mul (a b : Traced)
  | Div (a b : Traced)
  | Scale (r : Q) (a : Traced)
  | Pow (a : Traced) (p : Q)
  | Log (a : Traced)
  | Exp (a : Traced)
  | Sinh (a : Traced)
  | Atanh2 (a b : Traced).

Definition traced_eqb (a b : Traced) : bool :=
  match a, b with
  | Lit x, Lit y => Qeq_bool x y
  | _, _ => false
  end.

Definition traced_abs (a : Traced) : Q :=
  match a with
  | Lit x => Qabs x
  | _ => 0%Q
  end.

Definition TracedScalarOps : @ScalarOps Traced Q Qdouble := {|
  sadd := Add; ssub := Sub; smul := Mul; sdiv := Div;
  seqb := traced_eqb;
  s_of_int := fun z => Lit (inject_Z z);
  rsmul := Scale;
  sabs := traced_abs;
  simag := fun _ => 0%Q;
  IsComplex := false;
  make_complex := fun re _ => Lit re
|}.

Definition TracedElementaryOps : @ElementaryOps Traced Q Qdouble TracedScalarOps := {|
  spow := Pow;
  slog := Log;
  sexp := Exp;
  ssinh := Sinh;
  atanh2 := Atanh2
|}.

(** A pair of eigenvalues one of which is exactly double the other. *)
Definition T_double : Matrix Traced :=
  matrix2 (Lit 0) (Lit 1) (Lit 1) (Lit 0) (Lit 2).

Definition zero2_traced : Matrix Traced :=
  matrix2 (Lit 0) (Lit 0) (Lit 0) (Lit 0) (Lit 0).

(** Two unit upper triangular inputs for the scaling loop. *)
Definition T_unit3 : Matrix Q := (matrix3 0 1 1 1 0 1 1 0 0 1)%Q.
Definition T_near_identity : Matrix Q :=
  (matrix3 0 1 0.05 0.05 0 1 0.05 0 0 1)%Q.

Definition T_wide : Matrix Q :=
  (matrix3 0 1 0.1 0.1 0 1 0.12 0 0 1)%Q.

(** The degree and the number of square roots a run of the loop ends with. *)
Definition loop_outcome {Scalar : Type} (r : option (@ScalingResult Scalar))
  : option (nat * nat) :=
  match r with
  | Some r => Some (sr_degree r, sr_numberOfSquareRoots r)
  | None => None
  end.

(** ** Real scalars over the real numbers *)

(** [std::ceil] followed by the conversion to [int]: [up x] is the integer
    just above [x]. *)
Definition Rceil_int (x : R) : Z := (1 - up (- x))%Z.

Definition Rldexp (x : R) (e : Z) : R := (x * powerRZ 2 e)%R.

(** The reals standing for [double]. *)
Definition RRealOps : RealOps R := {|
  radd := Rplus; rsub := Rminus; rmul := Rmult; rdiv := Rdiv; ropp := Ropp;
  rltb := fun a b => if Rlt_dec a b then true else false;
  rleb := fun a b => if Rle_dec a b then true else false;
  of_int := IZR;
  lit := Q2R;
  ceil_int := Rceil_int;
  ldexp := Rldexp;
  digits := 53;
  float_kind := KDouble
|}.

Definition RScalarOps : @ScalarOps R R RRealOps := {|
  sadd := Rplus; ssub := Rminus; smul := Rmult; sdiv := Rdiv;
  seqb := fun a b => if Req_dec_T a b then true else false;
  s_of_int := IZR;
  rsmul := Rmult;
  sabs := Rabs;
  simag := fun _ => 0%R;
  IsComplex := false;
  make_complex := fun re _ => re
|}.

(** Modelled from the spec: [internal::atanh2], declared outside this header;
    the two-argument inverse hyperbolic tangent [0.5*log((b+a)/(b-a))]. *)
Definition Ratanh2 (a b : R) : R := (Q2R 0.5 * ln ((b + a) / (b - a)))%R.

(** [std::pow] is [Rpower] on a positive base, the only case the examples
    below use. *)
Definition RElementaryOps : @ElementaryOps R R RRealOps RScalarOps := {|
  spow := Rpower;
  slog := ln;
  sexp := exp;
  ssinh := sinh;
  atanh2 := Ratanh2
|}.

(** ** Complex scalars over the real numbers *)

(** [std::complex<double>] as pairs of reals: real part, imaginary part. *)
Definition Cplx : Type := (R * R)%type.

Definition Cadd (a b : Cplx) : Cplx := (fst a + fst b, snd a + snd b)%R.
Definition Csub (a b : Cplx) : Cplx := (fst a - fst b, snd a - snd b)%R.
Definition Cmul (a b : Cplx) : Cplx :=
  (fst a * fst b - snd a * snd b, fst a * snd b + snd a * fst b)%R.
Definition Cdiv (a b : Cplx) : Cplx :=
  let n := (fst b * fst b + snd b * snd b)%R in
  ((fst a * fst b + snd a * snd b) / n, (snd a * fst b - fst a * snd b) / n)%R.
Definition Cscale (r : R) (a : Cplx) : Cplx := (r * fst a, r * snd a)%R.
Definition Ceqb (a b : Cplx) : bool :=
  if Req_dec_T (fst a) (fst b)
  then if Req_dec_T (snd a) (snd b) then true else false
  else false.
Definition Cabs (a : Cplx) : R := sqrt (fst a * fst a + snd a * snd a).

(** The principal argument, in the interval from [-PI] (excluded) to [PI]. *)
Definition Carg (a : Cplx) : R :=
  let (x, y) := a in
  if Rlt_dec 0 x then atan (y / x)
  else if Rlt_dec x 0
       then if Rle_dec 0 y then (atan (y / x) + PI)%R else (atan (y / x) - PI)%R
       else if Rlt_dec 0 y then (PI / 2)%R
            else if Rlt_dec y 0 then (- PI / 2)%R else 0%R.

Definition Clog (a : Cplx) : Cplx := (ln (Cabs a), Carg a).
Definition Cexp (a : Cplx) : Cplx :=
  (exp (fst a) * cos (snd a), exp (fst a) * sin (snd a))%R.
Definition Csinh (a : Cplx) : Cplx :=
  Cscale (/ 2) (Csub (Cexp a) (Cexp (Cscale (-1) a))).
Definition Cpow (a : Cplx) (p : R) : Cplx := Cexp (Cscale p (Clog a)).

(** Modelled from the spec: [internal::atanh2], declared outside this header;
    the two-argument inverse hyperbolic tangent [0.5*log((b+a)/(b-a))]. *)
Definition Catanh2 (a b : Cplx) : Cplx :=
  Cscale (Q2R 0.5) (Clog (Cdiv (Cadd b a) (Csub b a))).

Definition CScalarOps : @ScalarOps Cplx R RRealOps := {|
  sadd := Cadd; ssub := Csub; smul := Cmul; sdiv := Cdiv;
  seqb := Ceqb;
  s_of_int := fun z => (IZR z, 0%R);
  rsmul := Cscale;
  sabs := Cabs;
  simag := snd;
  IsComplex := true;
  make_complex := fun re im => (re, im)
|}.

Definition CElementaryOps : @ElementaryOps Cplx R RRealOps CScalarOps := {|
  spow := Cpow;
  slog := Clog;
  sexp := Cexp;
  ssinh := Csinh;
  atanh2 := Catanh2
|}.

(** The inputs of the worked cases: equal, well-separated and close
    eigenvalues, and an output matrix that starts out as zero. *)
Definition T_equal : Matrix R := matrix2 0%R 2%R 5%R 0%R 2%R.
Definition T_separated : Matrix R := matrix2 0%R 4%R 1%R 0%R 9%R.
Definition T_close : Matrix R := matrix2 0%R 2%R 1%R 0%R 3%R.
Definition zero2 : Matrix R := matrix2 0%R 0%R 0%R 0%R 0%R.

(** ** Derived notions used by the statements *)

Section Derived.
Context {RealScalar Scalar : Type} {RO : RealOps RealScalar}
        {SO : ScalarOps Scalar RealScalar}.

(** The working matrix after [k] square roots (lines 358, 373-374). *)
Fixpoint sqrt_iterate {SR : SquareRoot Scalar} (A : Matrix Scalar) (k : nat)
  : Matrix Scalar :=
  match k with
  | O => upper A
  | S k' => upper (sqrtTriangular (sqrt_iterate A k'))
  end.

(** [normIminusT] at the pass that follows [k] square roots. *)
Definition norm_after {SR : SquareRoot Scalar} (A : Matrix Scalar) (k : nat)
  : RealScalar :=
  colsum_norm (msub (Identity (rows A) (cols A)) (sqrt_iterate A k)).

(** The test of line 366 at that pass. *)
Definition below_threshold {SR : SquareRoot Scalar} (A : Matrix Scalar)
           (k : nat) : bool :=
  rltb (norm_after A k) computeBig_maxNormForPade.

(** The condition under which the loop is shown to stop: the test of line
    366 holds at a pass [k1] and at a later pass [k2].  It holds at every
    pass from some pass on when the repeated square roots bring the norm of
    [I - W] below the threshold and keep it there. *)
Definition square_roots_reach_threshold {SR : SquareRoot Scalar}
           (A : Matrix Scalar) (k1 k2 : nat) : Prop :=
  k1 < k2 /\ below_threshold A k1 = true /\ below_threshold A k2 = true.

(** The loop variables at the pass that follows [k] square roots. *)
Definition loop_state {SR : SquareRoot Scalar} (A : Matrix Scalar) (k : nat)
           (hasExtraSquareRoot : bool) : @ScalingState Scalar :=
  {| st_T := sqrt_iterate A k;
     st_numberOfSquareRoots := k;
     st_hasExtraSquareRoot := hasExtraSquareRoot |}.

(** The scaling loop as the specification words it: below the threshold the
    loop stops when [d - d2 <= 1], except that the first time this holds one
    more square root is forced; otherwise a square root is taken.  The flag
    records that the condition has held before. *)
Definition spec_scaling_step {SR : SquareRoot Scalar} (A : Matrix Scalar)
           (st : @ScalingState Scalar) : @LoopStep Scalar :=
  let IminusT := msub (Identity (rows A) (cols A)) (st_T st) in
  let normIminusT := colsum_norm IminusT in
  if rltb normIminusT computeBig_maxNormForPade then
    let degree := matrix_power_get_pade_degree normIminusT in
    let degree2 := matrix_power_get_pade_degree (rdiv normIminusT (of_int 2)) in
    if (Z.of_nat degree - Z.of_nat degree2 <=? 1)%Z then
      if st_hasExtraSquareRoot st
      then Break {| sr_degree := degree;
                    sr_IminusT := IminusT;
                    sr_numberOfSquareRoots := st_numberOfSquareRoots st |}
      else Continue (take_square_root st true)
    else Continue (take_square_root st (st_hasExtraSquareRoot st))
  else Continue (take_square_root st (st_hasExtraSquareRoot st)).

Fixpoint spec_scaling_loop {SR : SquareRoot Scalar} (fuel : nat)
         (A : Matrix Scalar) (st : @ScalingState Scalar)
  : option (@ScalingResult Scalar) :=
  match fuel with
  | O => None
  | S fuel' =>
      match spec_scaling_step A st with
      | Break r => Some r
      | Continue st' => spec_scaling_loop fuel' A st'
      end
  end.

Context {EO : ElementaryOps Scalar RealScalar}.

(** What [compute2x2] leaves at [res(i-1,i)], in terms of [m_A] and [p]. *)
Definition superdiag_value (A : Matrix Scalar) (p : RealScalar) (i : nat) : Scalar :=
  match superdiag_case (coeff A (i - 1) (i - 1)) (coeff A i i) with
  | EqualDiagonal => rsmul p (spow (coeff A (i - 1) i) (rsub p (of_int 1)))
  | WellSeparated =>
      sdiv (smul (coeff A (i - 1) i)
                 (ssub (spow (coeff A i i) p) (spow (coeff A (i - 1) (i - 1)) p)))
           (ssub (coeff A i i) (coeff A (i - 1) (i - 1)))
  | CloseMagnitudes =>
      close_superdiag A (fun k => slog (coeff A k k)) p i
  end.

(** The coefficients of [res] once the loop of [compute2x2] has run up to
    [i = m]: the diagonal up to [m], the super-diagonal up to column [m], and
    elsewhere what [res] held before. *)
Definition compute2x2_entry (A res : Matrix Scalar) (p : RealScalar)
           (m r c : nat) : Scalar :=
  if (r =? c)%nat && (r <=? m)%nat then spow (coeff A r r) p
  else if (c =? S r)%nat && (c <=? m)%nat then superdiag_value A p c
  else coeff res r c.

(** Division that reports a zero divisor. *)
Definition sdiv_checked (a b : Scalar) : option Scalar :=
  if seqb b (s_of_int 0) then None else Some (sdiv a b).

(** [compute2x2_body] with every [Scalar] division checked. *)
Definition compute2x2_body_checked (A : Matrix Scalar) (logTdiag : nat -> Scalar)
           (p : RealScalar) (res : Matrix Scalar) (i : nat)
  : option (Matrix Scalar) :=
  let res := coeffRef_set res i i (spow (coeff A i i) p) in
  match superdiag_case (coeff A (i - 1) (i - 1)) (coeff A i i) with
  | EqualDiagonal =>
      Some (coeffRef_set res (i - 1) i
              (rsmul p (spow (coeff A (i - 1) i) (rsub p (of_int 1)))))
  | WellSeparated =>
      match sdiv_checked
              (smul (coeff A (i - 1) i)
                    (ssub (coeff res i i) (coeff res (i - 1) (i - 1))))
              (ssub (coeff A i i) (coeff A (i - 1) (i - 1))) with
      | Some q => Some (coeffRef_set res (i - 1) i q)
      | None => None
      end
  | CloseMagnitudes =>
      match sdiv_checked (close_numerator A logTdiag p i)
                         (ssub (coeff A i i) (coeff A (i - 1) (i - 1))) with
      | Some q => Some (coeffRef_set res (i - 1) i q)
      | None => None
      end
  end.

Fixpoint fold_checked (f : Matrix Scalar -> nat -> option (Matrix Scalar))
         (l : list nat) (res : Matrix Scalar) : option (Matrix Scalar) :=
  match l with
  | [] => Some res
  | i :: l' =>
      match f res i with
      | Some res' => fold_checked f l' res'
      | None => None
      end
  end.

(** [compute2x2] with every [Scalar] division checked: [None] when a divisor
    is zero. *)
Definition compute2x2_checked (A : Matrix Scalar) (res : Matrix Scalar)
           (p : RealScalar) : option (Matrix Scalar) :=
  let logTdiag := fun k => slog (coeff A k k) in
  let res := coeffRef_set res 0 0 (spow (coeff A 0 0) p) in
  fold_checked (compute2x2_body_checked A logTdiag p) (seq 1 (cols A - 1)) res.

End Derived.

(** ** The cost of binary powering *)

(** [std::frexp(x, &e)]: the exponent [e] it stores, with [x = m * 2^e] and
    [0.5 <= |m| < 1], and [e = 0] for [x = 0]. *)
Class FrexpOps (RealScalar : Type) : Type := {
  frexp_exponent : RealScalar -> Z
}.

Section BinaryPowering.
Context {RealScalar : Type} {RO : RealOps RealScalar} {FO : FrexpOps RealScalar}.

(** The loop
    [while (std::frexp(p, &tmp), tmp > 0) {
       p -= std::ldexp(static_cast<T>(0.5), tmp); ++applyings; }];
    [None] when [fuel] tests do not leave it. *)
Fixpoint binary_powering_loop (fuel : nat) (p : RealScalar) (applyings : Z)
  : option Z :=
  match fuel with
  | O => None
  | S fuel' =>
      let tmp := frexp_exponent p in
      if (0 <? tmp)%Z
      then binary_powering_loop fuel' (rsub p (ldexp (lit 0.5%Q) tmp))
                                (applyings + 1)%Z
      else Some applyings
  end.

(** [internal::binary_powering_cost]: the value returned and the value left
    in [*squarings]. *)
Definition binary_powering_cost (fuel : nat) (p : RealScalar) : option (Z * Z) :=
  let squarings := frexp_exponent p in
  let squarings := (squarings - 1)%Z in
  match binary_powering_loop fuel p 0 with
  | Some applyings => Some (applyings, squarings)
  | None => None
  end.

End BinaryPowering.

Definition QFrexpOps : FrexpOps Q := {| frexp_exponent := Qfrexp_exponent |}.

(** The number of one bits of a binary numeral. *)
Fixpoint Pos_popcount (q : positive) : nat :=
  match q with
  | xH => 1
  | xO q' => Pos_popcount q'
  | xI q' => S (Pos_popcount q')
  end.

Definition Z_popcount (z : Z) : nat :=
  match z with
  | Zpos q => Pos_popcount q
  | _ => 0
  end.

(** ** Collaborators that can be run *)

Section CollaboratorModels.
Context {RealScalar Scalar : Type} {RO : RealOps RealScalar}
        {SO : ScalarOps Scalar RealScalar}.

(** Modelled from the spec: the triangular linear solve, declared outside
    this header, returns [X] with [U * X = B] for upper triangular [U].
    Back substitution: the last [k] rows of [X], from the bottom row up. *)
Fixpoint back_substitution_rows (U B : Matrix Scalar) (k : nat)
  : nat -> nat -> Scalar :=
  match k with
  | O => fun _ _ => s_of_int 0
  | S k' =>
      let X := back_substitution_rows U B k' in
      let i := rows U - S k' in
      fun r c =>
        if (r =? i)%nat
        then sdiv (ssub (coeff B i c)
                        (ssum (map (fun l => smul (coeff U i l) (X l c))
                                   (seq (S i) k'))))
                  (coeff U i i)
        else X r c
  end.

(** Modelled from the spec: the triangular linear solve, declared outside
    this header, by back substitution. *)
Definition back_substitution (U B : Matrix Scalar) : Matrix Scalar :=
  {| rows := rows B; cols := cols B;
     coeff := back_substitution_rows U B (rows U) |}.

(** Modelled from the spec: the principal square root of an upper triangular
    matrix, declared outside this header, by the recurrence
    [s_ii = sqrt(t_ii)], [s_ij = (t_ij - sum s_ik s_kj) / (s_ii + s_jj)]:
    the entries up to the [d]-th super-diagonal. *)
Fixpoint triangular_sqrt_entries (ssqrt : Scalar -> Scalar) (T : Matrix Scalar)
         (d : nat) : nat -> nat -> Scalar :=
  match d with
  | O => fun i j => if (i =? j)%nat then ssqrt (coeff T i i) else s_of_int 0
  | S d' =>
      let S0 := triangular_sqrt_entries ssqrt T d' in
      fun i j =>
        if (j =? i + S d')%nat
        then sdiv (ssub (coeff T i j)
                        (ssum (map (fun k => smul (S0 i k) (S0 k j))
                                   (seq (S i) d'))))
                  (sadd (S0 i i) (S0 j j))
        else S0 i j
  end.

(** Modelled from the spec: the principal square root of an upper triangular
    matrix, declared outside this header, by that recurrence. *)
Definition triangular_sqrt (ssqrt : Scalar -> Scalar) (T : Matrix Scalar)
  : Matrix Scalar :=
  {| rows := rows T; cols := cols T;
     coeff := triangular_sqrt_entries ssqrt T (rows T - 1) |}.

End CollaboratorModels.

(** Modelled from the spec: the triangular solve over the reals, by back
    substitution. *)
Definition R_solver : TriangularSolver R :=
  {| triangularSolve := @back_substitution R R RRealOps RScalarOps |}.

(** Modelled from the spec: the triangular square root over the reals, by
    the recurrence above with [sqrt] on the diagonal. *)
Definition R_square_root : SquareRoot R :=
  {| sqrtTriangular := @triangular_sqrt R R RRealOps RScalarOps sqrt |}.

(** A 3 x 3 input close to the identity, the same input with coefficients
    below the diagonal, and the zero matrix. *)
Definition A_near_identity : Matrix R :=
  matrix3 0%R 1%R (1 / 100)%R 0%R 0%R 1%R (1 / 100)%R 0%R 0%R 1%R.

Definition A_near_identity_filled : Matrix R :=
  matrix3 0%R 1%R (1 / 100)%R 0%R 7%R 1%R (1 / 100)%R 8%R 9%R 1%R.

Definition zero3 : Matrix R := matrix3 0%R 0%R 0%R 0%R 0%R 0%R 0%R 0%R 0%R 0%R.

(** ** Real scalars in IEEE double arithmetic *)

(** Conversion from [int]; exact below [2^53]. *)
Definition float_of_Z (z : Z) : PrimFloat.float :=
  match z with
  | Z0 => PrimFloat.zero
  | Zpos _ => PrimFloat.of_uint63 (Uint63.of_Z z)
  | Zneg p => PrimFloat.opp (PrimFloat.of_uint63 (Uint63.of_Z (Zpos p)))
  end.

(** The [double] nearest to a decimal literal. *)
Definition float_lit (q : Q) : PrimFloat.float :=
  let (m, e) := Qround_binary_parts 53 q in
  FloatOps.Z.ldexp (float_of_Z m) e.

(** [std::ceil] followed by the conversion to [int], on the finite numbers. *)
Definition float_ceil_int (x : PrimFloat.float) : Z :=
  match FloatOps.Prim2SF x with
  | SpecFloat.S754_finite s m e =>
      let v := if s then Zneg m else Zpos m in
      if (0 <=? e)%Z then (v * 2 ^ e)%Z else (- ((- v) / 2 ^ (- e)))%Z
  | _ => 0%Z
  end.

(** [double] as the binary64 numbers, NaN and the infinities included. *)
Definition FRealOps : RealOps PrimFloat.float := {|
  radd := PrimFloat.add; rsub := PrimFloat.sub; rmul := PrimFloat.mul;
  rdiv := PrimFloat.div; ropp := PrimFloat.opp;
  rltb := PrimFloat.ltb;
  rleb := PrimFloat.leb;
  of_int := float_of_Z;
  lit := float_lit;
  ceil_int := float_ceil_int;
  ldexp := FloatOps.Z.ldexp;
  digits := 53;
  float_kind := KDouble
|}.

Definition FScalarOps : @ScalarOps PrimFloat.float PrimFloat.float FRealOps := {|
  sadd := PrimFloat.add; ssub := PrimFloat.sub; smul := PrimFloat.mul;
  sdiv := PrimFloat.div;
  seqb := PrimFloat.eqb;
  s_of_int := float_of_Z;
  rsmul := PrimFloat.mul;
  sabs := PrimFloat.abs;
  simag := fun _ => PrimFloat.zero;
  IsComplex := false;
  make_complex := fun re _ => re
|}.

(** Modelled from the spec: the triangular square root over [double], by
    the recurrence above with the correctly rounded [sqrt] on the diagonal,
    which is NaN on a negative number. *)
Definition F_square_root : SquareRoot PrimFloat.float :=
  {| sqrtTriangular :=
       @triangular_sqrt PrimFloat.float PrimFloat.float FRealOps FScalarOps
                        PrimFloat.sqrt |}.

(** The 3 x 3 matrix [-I] over [double]: its eigenvalues are all -1, of
    magnitude 1. *)
Definition F_minus_identity : Matrix PrimFloat.float :=
  let z := PrimFloat.zero in
  let m := PrimFloat.opp PrimFloat.one in
  matrix3 z m z z z m z z z m.

(** A 3 x 3 matrix whose coefficients on and above the diagonal are NaN. *)
Definition nan_upper3 (T : Matrix PrimFloat.float) : Prop :=
  rows T = 3 /\ cols T = 3
  /\ forall i j, i <= j < 3 -> coeff T i j = PrimFloat.nan.

(** ** Notions used by the further properties *)

(** [A] and [A'] have the same dimensions and the same coefficients on and
    above the diagonal. *)
Definition same_upper_part {Scalar : Type} (A A' : Matrix Scalar) : Prop :=
  rows A = rows A' /\ cols A = cols A'
  /\ forall i j, i <= j -> coeff A i j = coeff A' i j.

(** [digits] is the mantissa width of the type the overload of
    [matrix_power_get_pade_degree] is selected for: at most 24 bits for
    [float], more than 24 and at most 53 for [double], and a [long double]
    that has the format of [double]. *)
Definition digits_match_overload {RealScalar : Type} {RO : RealOps RealScalar}
  : Prop :=
  match float_kind with
  | KFloat => (digits <= 24)%Z
  | KDouble => (24 < digits <= 53)%Z
  | KLongDouble => (digits = 53)%Z
  end.

(** [operator<=] is transitive and decimal literals keep their order. *)
Definition rleb_orders_literals {RealScalar : Type} {RO : RealOps RealScalar}
  : Prop :=
  (forall a b c : RealScalar,
      rleb a b = true -> rleb b c = true -> rleb a c = true)
  /\ (forall q1 q2 : Q, (q1 <= q2)%Q -> rleb (lit q1) (lit q2) = true).

(** A list of rationals in increasing order. *)
Fixpoint increasing (l : list Q) : bool :=
  match l with
  | a :: (b :: _) as l' => Qle_bool a b && increasing l'
  | _ => true
  end.

(** * Properties *)

(** ** The arithmetic laws hold in the instances *)

Lemma Qle_bool_false_lt (a b : Q) : Qle_bool a b = false -> (b < a)%Q.
Proof.
  intros Hf. apply Qnot_le_lt. intros Hle.
  apply Qle_bool_iff in Hle. congruence.
Qed.

Lemma QRealLaws (k : FloatKind) (d : Z) : @RealLaws Q (QRealOps k d).
Proof.
  split.
  - intros a b c Hab Hbc. cbn in *.
    apply negb_true_iff in Hab. apply Qle_bool_false_lt in Hab.
    apply Qle_bool_iff in Hbc. apply Qle_bool_iff.
    apply Qlt_le_weak. eapply Qlt_le_trans; eassumption.
  - vm_compute. reflexivity.
  - vm_compute. reflexivity.
Qed.

Lemma QScalarLaws (k : FloatKind) (d : Z) :
  @ScalarLaws Q Q (QRealOps k d) (QScalarOps (QRealOps k d)).
Proof.
  split; cbn.
  - intros a b Hz. apply Qeq_bool_iff in Hz. apply Qeq_bool_iff.
    unfold Qeq in *. cbn in *. lia.
  - intros a b Heq. apply Qeq_bool_iff in Heq.
    assert (Hab : (Qabs a == Qabs b)%Q) by (rewrite Heq; reflexivity).
    assert (Ha : (0 <= Qabs a)%Q) by apply Qabs_nonneg.
    assert (Hb : (0 <= Qabs b)%Q) by apply Qabs_nonneg.
    split; apply negb_false_iff, Qle_bool_iff.
    + rewrite <- Hab.
      setoid_replace (Qabs a) with (1 * Qabs a)%Q at 1 by ring.
      apply Qmult_le_compat_r; [discriminate | exact Ha].
    + rewrite Hab.
      setoid_replace (Qabs b) with (1 * Qabs b)%Q at 1 by ring.
      apply Qmult_le_compat_r; [discriminate | exact Hb].
  - intros _ _. reflexivity.
  - intros _ _. reflexivity.
Qed.

Lemma M_PI_real_pos : (0 < @M_PI R RRealOps)%R.
Proof.
  unfold M_PI. cbn [lit RRealOps].
  rewrite <- RMicromega.Q2R_0. apply Qlt_Rlt. reflexivity.
Qed.

Lemma Rceil_int_minus_half : Rceil_int (- / 2) = 0%Z.
Proof.
  unfold Rceil_int.
  assert (Hup : up (- - / 2) = 1%Z).
  { symmetry. apply tech_up; lra. }
  rewrite Hup. reflexivity.
Qed.

Lemma RRealLaws : @RealLaws R RRealOps.
Proof.
  split.
  - intros a b c. cbn.
    destruct (Rlt_dec a b), (Rle_dec b c), (Rle_dec a c);
      try discriminate; try reflexivity; intros _ _; lra.
  - pose proof M_PI_real_pos as Hpi. cbn [rltb rmul of_int RRealOps].
    destruct (Rlt_dec 0 (2 * M_PI)); [reflexivity | lra].
  - cbn [ceil_int rdiv rsub rmul of_int RRealOps].
    pose proof M_PI_real_pos as Hpi.
    replace ((0 - M_PI) / (2 * M_PI))%R with (- / 2)%R by (field; lra).
    apply Rceil_int_minus_half.
Qed.

Lemma RScalarLaws : @ScalarLaws R R RRealOps RScalarOps.
Proof.
  split; cbn.
  - intros a b. destruct (Req_dec_T (b - a) 0), (Req_dec_T a b);
      try discriminate; try reflexivity; intros _; lra.
  - intros a b. destruct (Req_dec_T a b) as [-> | ]; [intros _ | discriminate].
    pose proof (Rabs_pos b).
    split; destruct (Rlt_dec (2 * Rabs b) (Rabs b)); try reflexivity; lra.
  - intros _ _. lra.
  - intros _ _. reflexivity.
Qed.

Lemma CScalarLaws : @ScalarLaws Cplx R RRealOps CScalarOps.
Proof.
  split; cbn.
  - intros [a1 a2] [b1 b2]. unfold Ceqb. cbn.
    destruct (Req_dec_T (b1 - a1) 0); [| discriminate].
    destruct (Req_dec_T (b2 - a2) 0); [| discriminate]. intros _.
    destruct (Req_dec_T a1 b1); [| lra].
    destruct (Req_dec_T a2 b2); [reflexivity | lra].
  - intros [a1 a2] [b1 b2]. unfold Ceqb. cbn.
    destruct (Req_dec_T a1 b1) as [-> |]; [| discriminate].
    destruct (Req_dec_T a2 b2) as [-> |]; [| discriminate]. intros _.
    pose proof (sqrt_pos (b1 * b1 + b2 * b2)) as Hpos.
    unfold Cabs. cbn.
    split; destruct (Rlt_dec _ _); try reflexivity; lra.
  - intros a b. reflexivity.
  - discriminate.
Qed.

(** ** Pade degree selector *)

Section PadeProperties.
Context {RealScalar : Type} {RO : RealOps RealScalar}.

(** The loop returns the first degree it tries whose threshold admits the
    norm, and one past the last degree tried when none does. *)
Lemma pade_degree_loop_spec (table : list RealScalar) (n : RealScalar) :
  forall remaining degree,
    let d := pade_degree_loop table n remaining degree in
    degree <= d <= degree + remaining /\
    (forall d', degree <= d' < d ->
                rleb n (nth (d' - 3) table (of_int 0)) = false) /\
    (d < degree + remaining ->
     rleb n (nth (d - 3) table (of_int 0)) = true).
Proof.
  induction remaining as [| remaining IH]; intros degree; cbn.
  - repeat split; intros; lia.
  - destruct (rleb n (nth (degree - 3) table (of_int 0))) eqn:Hle.
    + repeat split; intros; try lia. exact Hle.
    + specialize (IH (S degree)). cbv zeta in IH.
      destruct IH as [Hrange [Hbelow Hhit]].
      repeat split; try lia.
      * intros d' Hd'.
        destruct (Nat.eq_dec d' degree) as [-> | Hne]; [exact Hle |].
        apply Hbelow. lia.
      * intros Hlt. apply Hhit. lia.
Qed.

Lemma maxPadeDegree_cases :
  (float_kind = KFloat -> maxPadeDegree = 4) /\
  (float_kind = KDouble -> maxPadeDegree = 7) /\
  (float_kind = KLongDouble ->
   maxPadeDegree = 7 \/ maxPadeDegree = 8 \/ maxPadeDegree = 10).
Proof.
  unfold maxPadeDegree.
  destruct float_kind; repeat split; try discriminate; intros _;
    try reflexivity.
  destruct (digits =? 53)%Z; [left; reflexivity |].
  destruct (digits <=? 64)%Z; [right; left; reflexivity |].
  destruct (digits <=? 106)%Z; right; right; reflexivity.
Qed.

Lemma maxPadeDegree_ge_4 : 4 <= maxPadeDegree.
Proof.
  destruct maxPadeDegree_cases as [Hf [Hd Hl]].
  destruct float_kind.
  - rewrite Hf; [lia | reflexivity].
  - rewrite Hd; [lia | reflexivity].
  - destruct Hl as [H | [H | H]]; try reflexivity; rewrite H; lia.
Qed.

(** Every overload has one threshold per degree of its range. *)
Lemma maxNormForPade_table_length :
  length (@maxNormForPade_table RealScalar RO) = maxPadeDegree - 2.
Proof.
  unfold maxNormForPade_table, maxPadeDegree.
  destruct float_kind; try reflexivity.
  destruct (digits =? 53)%Z; [reflexivity |].
  destruct (digits <=? 64)%Z; [reflexivity |].
  destruct (digits <=? 106)%Z; reflexivity.
Qed.

(** C3 (as amended): for every norm [n] and every precision class,
    [matrix_power_get_pade_degree] returns the smallest degree [d] between 3
    and the precision's maximum (4 for float, 7 for double, 7, 8 or 10 for
    long double) with [n <= maxNormForPade[d - 3]]; when [n] exceeds every
    tabulated threshold it returns the maximum plus one, so the result lies
    in the range from 3 to the maximum plus one. *)
Theorem pade_degree_smallest_or_past_maximum (n : RealScalar) :
  let d := matrix_power_get_pade_degree n in
  3 <= d <= maxPadeDegree + 1 /\
  (forall d', 3 <= d' < d -> rleb n (pade_threshold d') = false) /\
  (d <= maxPadeDegree -> rleb n (pade_threshold d) = true) /\
  ((forall d', 3 <= d' <= maxPadeDegree -> rleb n (pade_threshold d') = false) ->
   d = maxPadeDegree + 1) /\
  (float_kind = KFloat -> maxPadeDegree = 4) /\
  (float_kind = KDouble -> maxPadeDegree = 7) /\
  (float_kind = KLongDouble ->
   maxPadeDegree = 7 \/ maxPadeDegree = 8 \/ maxPadeDegree = 10).
Proof.
  cbv zeta.
  pose proof maxPadeDegree_ge_4 as Hmax.
  pose proof (pade_degree_loop_spec maxNormForPade_table n
                (maxPadeDegree + 1 - 3) 3) as Hspec.
  cbv zeta in Hspec. fold (pade_degree_for maxPadeDegree maxNormForPade_table n) in Hspec.
  fold (matrix_power_get_pade_degree n) in Hspec.
  destruct Hspec as [Hrange [Hbelow Hhit]].
  unfold pade_threshold.
  split; [lia |].
  split; [exact Hbelow |].
  split; [intros Hd; apply Hhit; lia |].
  split; [| exact maxPadeDegree_cases].
  intros Hall.
  destruct (Nat.eq_dec (matrix_power_get_pade_degree n) (maxPadeDegree + 1))
    as [Heq | Hne]; [exact Heq |].
  assert (Hd : matrix_power_get_pade_degree n <= maxPadeDegree) by lia.
  rewrite Hall in Hhit by lia.
  assert (false = true) by (apply Hhit; lia). discriminate.
Qed.

Context {RL : RealLaws RealScalar}.

Lemma pade_degree_loop_monotone (table : list RealScalar) (n1 n2 : RealScalar) :
  rltb n1 n2 = true ->
  forall remaining degree,
    pade_degree_loop table n1 remaining degree
    <= pade_degree_loop table n2 remaining degree.
Proof.
  intros Hlt. induction remaining as [| remaining IH]; intros degree; cbn.
  - lia.
  - destruct (rleb n2 (nth (degree - 3) table (of_int 0))) eqn:H2.
    + rewrite (rltb_rleb_trans _ _ _ Hlt H2). lia.
    + destruct (rleb n1 (nth (degree - 3) table (of_int 0))).
      * pose proof (pade_degree_loop_spec table n2 remaining (S degree)) as Hs.
        cbv zeta in Hs. lia.
      * apply IH.
Qed.

(** C8: the degree selector is monotonic: within one precision class,
    [norm1 < norm2] gives [degree(norm1) <= degree(norm2)]. *)
Theorem pade_degree_monotone (norm1 norm2 : RealScalar) :
  rltb norm1 norm2 = true ->
  matrix_power_get_pade_degree norm1 <= matrix_power_get_pade_degree norm2.
Proof.
  intros Hlt. unfold matrix_power_get_pade_degree, pade_degree_for.
  apply pade_degree_loop_monotone. exact Hlt.
Qed.

End PadeProperties.

(** C3, the claim as stated fails: in double precision the norm 0.3 exceeds
    every threshold and the selector returns 8, above the maximum 7; in
    single precision 0.5 gives 5, above the maximum 4. *)
Lemma pade_degree_exceeds_maximum :
  @matrix_power_get_pade_degree Q Qdouble 0.3%Q = 8
  /\ @maxPadeDegree Q Qdouble = 7
  /\ @matrix_power_get_pade_degree Q Qfloat 0.5%Q = 5
  /\ @maxPadeDegree Q Qfloat = 4.
Proof.
  repeat split; vm_compute; reflexivity.
Qed.

(** C8 at the norms 0.01 and 0.2 in double precision: degrees 3 and 7. *)
Lemma pade_degree_monotone_witness :
  @matrix_power_get_pade_degree Q Qdouble 0.01%Q = 3
  /\ @matrix_power_get_pade_degree Q Qdouble 0.2%Q = 7
  /\ @matrix_power_get_pade_degree Q Qdouble 0.01%Q
     <= @matrix_power_get_pade_degree Q Qdouble 0.2%Q.
Proof.
  split; [reflexivity |]. split; [reflexivity |].
  apply (@pade_degree_monotone Q Qdouble (QRealLaws KDouble 53) 0.01%Q 0.2%Q).
  reflexivity.
Defined.

(** ** The 2 x 2 block solver *)

Section Compute2x2Properties.
Context {RealScalar Scalar : Type} {RO : RealOps RealScalar}
        {SO : ScalarOps Scalar RealScalar} {EO : ElementaryOps Scalar RealScalar}.

Lemma coeff_coeffRef_set (m : Matrix Scalar) (i j : nat) (v : Scalar) (r c : nat) :
  coeff (coeffRef_set m i j v) r c
  = if (r =? i)%nat && (c =? j)%nat then v else coeff m r c.
Proof. reflexivity. Qed.

(** One iteration, for [i = S m], from a matrix whose entry [(m,m)] is
    already the power of [m_A(m,m)]. *)
Lemma compute2x2_body_coeff (A res : Matrix Scalar) (p : RealScalar) (m : nat) :
  coeff res m m = spow (coeff A m m) p ->
  forall r c,
    coeff (compute2x2_body A (fun k => slog (coeff A k k)) p res (S m)) r c
    = if (r =? m)%nat && (c =? S m)%nat then superdiag_value A p (S m)
      else if (r =? S m)%nat && (c =? S m)%nat then spow (coeff A (S m) (S m)) p
      else coeff res r c.
Proof.
  intros Hdiag r c.
  unfold compute2x2_body, superdiag_value.
  replace (S m - 1) with m by lia.
  destruct (superdiag_case (coeff A m m) (coeff A (S m) (S m)));
    rewrite !coeff_coeffRef_set; try reflexivity.
  rewrite !Nat.eqb_refl. cbn [andb].
  replace (m =? S m)%nat with false by (symmetry; apply Nat.eqb_neq; lia).
  cbn [andb]. rewrite Hdiag. reflexivity.
Qed.

Lemma compute2x2_entry_step (A res : Matrix Scalar) (p : RealScalar) (m r c : nat) :
  (if (r =? m)%nat && (c =? S m)%nat then superdiag_value A p (S m)
   else if (r =? S m)%nat && (c =? S m)%nat then spow (coeff A (S m) (S m)) p
   else compute2x2_entry A res p m r c)
  = compute2x2_entry A res p (S m) r c.
Proof.
  unfold compute2x2_entry.
  destruct (Nat.eqb_spec r m), (Nat.eqb_spec c (S m)), (Nat.eqb_spec r (S m)),
    (Nat.eqb_spec r c), (Nat.eqb_spec c (S r)),
    (Nat.leb_spec r m), (Nat.leb_spec r (S m)),
    (Nat.leb_spec c m), (Nat.leb_spec c (S m));
    cbn [andb]; subst; try reflexivity; try lia.
Qed.

(** The loop invariant of [compute2x2]. *)
Lemma compute2x2_loop_coeff (A res : Matrix Scalar) (p : RealScalar) :
  forall m r c,
    coeff (fold_left (compute2x2_body A (fun k => slog (coeff A k k)) p)
                     (seq 1 m)
                     (coeffRef_set res 0 0 (spow (coeff A 0 0) p))) r c
    = compute2x2_entry A res p m r c.
Proof.
  induction m as [| m IH]; intros r c.
  - cbn [seq fold_left]. rewrite coeff_coeffRef_set. unfold compute2x2_entry.
    destruct (Nat.eqb_spec r 0), (Nat.eqb_spec c 0), (Nat.eqb_spec r c),
      (Nat.eqb_spec c (S r)), (Nat.leb_spec r 0), (Nat.leb_spec c 0);
      cbn [andb]; subst; try reflexivity; try lia.
  - rewrite seq_S, fold_left_app. cbn [fold_left].
    replace (1 + m) with (S m) by lia.
    rewrite compute2x2_body_coeff.
    + rewrite <- compute2x2_entry_step.
      rewrite !IH. reflexivity.
    + rewrite IH. unfold compute2x2_entry.
      rewrite Nat.eqb_refl, Nat.leb_refl. reflexivity.
Qed.

(** Every coefficient of the result of [compute2x2]. *)
Lemma compute2x2_coeff (A res : Matrix Scalar) (p : RealScalar) (r c : nat) :
  coeff (compute2x2 A res p) r c = compute2x2_entry A res p (cols A - 1) r c.
Proof. unfold compute2x2. apply compute2x2_loop_coeff. Qed.

Lemma compute2x2_diagonal (A res : Matrix Scalar) (p : RealScalar) (k : nat) :
  k <= cols A - 1 ->
  coeff (compute2x2 A res p) k k = spow (coeff A k k) p.
Proof.
  intros Hk. rewrite compute2x2_coeff. unfold compute2x2_entry.
  rewrite Nat.eqb_refl. cbn [andb].
  destruct (Nat.leb_spec k (cols A - 1)); [reflexivity | lia].
Qed.

Lemma compute2x2_superdiagonal (A res : Matrix Scalar) (p : RealScalar) (i : nat) :
  1 <= i < cols A ->
  coeff (compute2x2 A res p) (i - 1) i = superdiag_value A p i.
Proof.
  intros Hi. rewrite compute2x2_coeff. unfold compute2x2_entry.
  destruct (Nat.eqb_spec (i - 1) i); [lia |]. cbn [andb].
  destruct (Nat.eqb_spec i (S (i - 1))); [| lia].
  destruct (Nat.leb_spec i (cols A - 1)); [reflexivity | lia].
Qed.

(** [compute2x2] writes the diagonal and the first super-diagonal only. *)
Lemma compute2x2_frame (A res : Matrix Scalar) (p : RealScalar) (r c : nat) :
  r <> c -> c <> S r ->
  coeff (compute2x2 A res p) r c = coeff res r c.
Proof.
  intros Hd Hs. rewrite compute2x2_coeff. unfold compute2x2_entry.
  destruct (Nat.eqb_spec r c); [contradiction |].
  destruct (Nat.eqb_spec c (S r)); [contradiction |]. reflexivity.
Qed.

End Compute2x2Properties.

Section BlockSolverClaims.
Context {RealScalar Scalar : Type} {RO : RealOps RealScalar}
        {SO : ScalarOps Scalar RealScalar} {EO : ElementaryOps Scalar RealScalar}.

(** The first branch: for equal diagonal entries the stored value is
    [p * pow(m_A(i-1,i), p-1)], the power of the off-diagonal entry. *)
Lemma equal_diagonal_superdiagonal (A res : Matrix Scalar) (p : RealScalar) (i : nat) :
  1 <= i < cols A ->
  seqb (coeff A (i - 1) (i - 1)) (coeff A i i) = true ->
  coeff (compute2x2 A res p) (i - 1) i
  = rsmul p (spow (coeff A (i - 1) i) (rsub p (of_int 1))).
Proof.
  intros Hi Heq. rewrite compute2x2_superdiagonal by exact Hi.
  unfold superdiag_value, superdiag_case. rewrite Heq. reflexivity.
Qed.

Context {SL : ScalarLaws Scalar RealScalar}.

Lemma superdiag_case_separated (a b : Scalar) :
  rltb (rmul (of_int 2) (sabs a)) (sabs b) = true
  \/ rltb (rmul (of_int 2) (sabs b)) (sabs a) = true ->
  superdiag_case a b = WellSeparated.
Proof.
  intros Hsep. unfold superdiag_case.
  destruct (seqb a b) eqn:Heq.
  - destruct (seqb_not_separated a b Heq) as [H1 H2].
    destruct Hsep as [H | H]; congruence.
  - destruct Hsep as [H | H]; rewrite H; [| rewrite orb_true_r]; reflexivity.
Qed.

(** C6 (as amended): for every adjacent diagonal pair in which one
    eigenvalue's magnitude is more than double the other's, in either
    direction, [compute2x2] sets the super-diagonal entry to
    [T[i-1,i] * (output[i,i] - output[i-1,i-1]) / (T[i,i] - T[i-1,i-1])]. *)
Theorem well_separated_superdiagonal (A res : Matrix Scalar) (p : RealScalar) (i : nat) :
  1 <= i < cols A ->
  rltb (rmul (of_int 2) (sabs (coeff A (i - 1) (i - 1)))) (sabs (coeff A i i)) = true
  \/ rltb (rmul (of_int 2) (sabs (coeff A i i))) (sabs (coeff A (i - 1) (i - 1))) = true ->
  let output := compute2x2 A res p in
  coeff output (i - 1) i
  = sdiv (smul (coeff A (i - 1) i)
               (ssub (coeff output i i) (coeff output (i - 1) (i - 1))))
         (ssub (coeff A i i) (coeff A (i - 1) (i - 1))).
Proof.
  intros Hi Hsep. cbv zeta.
  rewrite compute2x2_superdiagonal by exact Hi.
  rewrite !compute2x2_diagonal by lia.
  unfold superdiag_value.
  rewrite (superdiag_case_separated _ _ Hsep). reflexivity.
Qed.

Context {RL : RealLaws RealScalar}.

Lemma rsub_zero_zero (z : Scalar) :
  IsComplex = false -> rsub (of_int 0) (of_int 0) = of_int 0 :> RealScalar.
Proof.
  intros Hreal.
  rewrite <- (simag_real Hreal z) at 1 2.
  rewrite <- simag_ssub. apply (simag_real Hreal).
Qed.

(** C5: for every adjacent diagonal pair whose entries are unequal and not
    well-separated in magnitude, the unwinding number is
    [u = ceil((Im(log T[i,i]) - Im(log T[i-1,i-1]) - pi) / (2*pi))], which is
    0 for a real Scalar, [w] is [atanh2(T[i,i]-T[i-1,i-1], T[i,i]+T[i-1,i-1])]
    plus [i*pi*u] (the imaginary term is left out for a real Scalar), and the
    super-diagonal entry is
    [T[i-1,i] * 2 * exp(0.5*p*(log T[i,i] + log T[i-1,i-1])) * sinh(p*w)
     / (T[i,i] - T[i-1,i-1])]. *)
Theorem close_magnitudes_superdiagonal (A res : Matrix Scalar) (p : RealScalar) (i : nat) :
  1 <= i < cols A ->
  superdiag_case (coeff A (i - 1) (i - 1)) (coeff A i i) = CloseMagnitudes ->
  let logT := fun k => slog (coeff A k k) in
  let u := ceil_int (rdiv (rsub (rsub (simag (logT i)) (simag (logT (i - 1)))) M_PI)
                          (rmul (of_int 2) M_PI)) in
  let w := if IsComplex
           then sadd (atanh2 (ssub (coeff A i i) (coeff A (i - 1) (i - 1)))
                             (sadd (coeff A i i) (coeff A (i - 1) (i - 1))))
                     (make_complex (of_int 0) (rmul M_PI (of_int u)))
           else atanh2 (ssub (coeff A i i) (coeff A (i - 1) (i - 1)))
                       (sadd (coeff A i i) (coeff A (i - 1) (i - 1))) in
  coeff (compute2x2 A res p) (i - 1) i
  = sdiv (smul (smul (srmul (coeff A (i - 1) i) (of_int 2))
                     (sexp (rsmul (rmul (lit 0.5%Q) p)
                                  (sadd (logT i) (logT (i - 1))))))
               (ssinh (rsmul p w)))
         (ssub (coeff A i i) (coeff A (i - 1) (i - 1)))
  /\ (IsComplex = false -> u = 0%Z).
Proof.
  intros Hi Hcase. cbv zeta. split.
  - rewrite compute2x2_superdiagonal by exact Hi.
    unfold superdiag_value. rewrite Hcase.
    unfold close_superdiag, close_numerator, unwinding_number,
      matrix_power_unwinder.
    rewrite simag_ssub. reflexivity.
  - intros Hreal.
    rewrite !(simag_real Hreal).
    rewrite (rsub_zero_zero (coeff A 0 0) Hreal).
    apply ceil_minus_half.
Qed.

(** The tests of [compute2x2] read off [superdiag_case]. *)
Lemma superdiag_case_close (a b : Scalar) :
  superdiag_case a b = CloseMagnitudes <->
  seqb a b = false
  /\ rltb (rmul (of_int 2) (sabs a)) (sabs b) = false
  /\ rltb (rmul (of_int 2) (sabs b)) (sabs a) = false.
Proof.
  unfold superdiag_case.
  destruct (seqb a b); [split; [discriminate | intros [H _]; discriminate] |].
  destruct (rltb (rmul (of_int 2) (sabs a)) (sabs b));
    destruct (rltb (rmul (of_int 2) (sabs b)) (sabs a)); cbn [orb];
    split; try discriminate; intuition congruence.
Qed.

Lemma superdiag_case_unequal (a b : Scalar) :
  superdiag_case a b <> EqualDiagonal <-> seqb a b = false.
Proof.
  unfold superdiag_case. destruct (seqb a b).
  - split; [intros H; contradiction H; reflexivity | discriminate].
  - split; [reflexivity |]. intros _.
    destruct (_ || _); discriminate.
Qed.

Lemma compute2x2_body_checked_some (A : Matrix Scalar) (p : RealScalar)
      (res : Matrix Scalar) (i : nat) :
  compute2x2_body_checked A (fun k => slog (coeff A k k)) p res i
  = Some (compute2x2_body A (fun k => slog (coeff A k k)) p res i).
Proof.
  unfold compute2x2_body_checked, compute2x2_body, close_superdiag, sdiv_checked.
  destruct (superdiag_case (coeff A (i - 1) (i - 1)) (coeff A i i)) eqn:Hcase;
    [reflexivity | |].
  all: assert (Hne : seqb (coeff A (i - 1) (i - 1)) (coeff A i i) = false)
    by (apply superdiag_case_unequal; rewrite Hcase; discriminate).
  all: destruct (seqb (ssub (coeff A i i) (coeff A (i - 1) (i - 1))) (s_of_int 0))
         eqn:Hz; [apply seqb_ssub_zero in Hz; congruence | reflexivity].
Qed.

Lemma fold_checked_some (f : Matrix Scalar -> nat -> Matrix Scalar)
      (g : Matrix Scalar -> nat -> option (Matrix Scalar)) :
  (forall res i, g res i = Some (f res i)) ->
  forall l res, fold_checked g l res = Some (fold_left f l res).
Proof.
  intros Hg. induction l as [| i l IH]; intros res; cbn.
  - reflexivity.
  - rewrite Hg. apply IH.
Qed.

(** C10: in [compute2x2], for every input matrix and exponent, every
    division is well-defined: the run with checked divisions never meets a
    zero divisor and returns what [compute2x2] returns, and the divisor
    [2*M_PI] of the unwinding number is positive; the divided difference and
    the hyperbolic sine branches are reached only for pairs with
    [T[i-1,i-1] != T[i,i]], whose difference is nonzero, and a pair of equal
    entries takes the exact-equality branch. *)
Theorem compute2x2_divisions_defined (A res : Matrix Scalar) (p : RealScalar) :
  compute2x2_checked A res p = Some (compute2x2 A res p)
  /\ rltb (of_int 0) (rmul (of_int 2) M_PI) = true
  /\ forall i, 1 <= i < cols A ->
       (superdiag_case (coeff A (i - 1) (i - 1)) (coeff A i i) <> EqualDiagonal ->
        seqb (coeff A (i - 1) (i - 1)) (coeff A i i) = false
        /\ seqb (ssub (coeff A i i) (coeff A (i - 1) (i - 1))) (s_of_int 0) = false)
       /\ (seqb (coeff A (i - 1) (i - 1)) (coeff A i i) = true ->
           superdiag_case (coeff A (i - 1) (i - 1)) (coeff A i i) = EqualDiagonal).
Proof.
  split; [| split].
  - unfold compute2x2_checked, compute2x2.
    apply fold_checked_some. intros r i. apply compute2x2_body_checked_some.
  - apply two_pi_positive.
  - intros i _. split.
    + intros Hcase. apply superdiag_case_unequal in Hcase. split; [exact Hcase |].
      destruct (seqb (ssub (coeff A i i) (coeff A (i - 1) (i - 1))) (s_of_int 0))
        eqn:Hz; [apply seqb_ssub_zero in Hz; congruence | reflexivity].
    + intros Heq. unfold superdiag_case. rewrite Heq. reflexivity.
Qed.

End BlockSolverClaims.

(** ** Dispatch on the dimension *)

Section ComputeProperties.
Context {RealScalar Scalar : Type} {RO : RealOps RealScalar}
        {SO : ScalarOps Scalar RealScalar} {EO : ElementaryOps Scalar RealScalar}
        {TS : TriangularSolver Scalar} {SR : SquareRoot Scalar}.

(** C7: [compute] dispatches on the dimension of the matrix: a 0 x 0 input
    leaves the output as it is, a 1 x 1 input stores [pow(T[0,0], p)] at
    [output[0,0]] and nothing else, a 2 x 2 input is handed to [compute2x2]
    and every larger one to [computeBig]. *)
Theorem compute_dispatch (fuel : nat) (A res : Matrix Scalar) (p : RealScalar) :
  (rows A = 0 -> compute fuel A res p = Some res)
  /\ (rows A = 1 ->
      exists output,
        compute fuel A res p = Some output
        /\ coeff output 0 0 = spow (coeff A 0 0) p
        /\ (forall r c, (r, c) <> (0, 0) -> coeff output r c = coeff res r c)
        /\ rows output = rows res /\ cols output = cols res)
  /\ (rows A = 2 -> compute fuel A res p = Some (compute2x2 A res p))
  /\ (2 < rows A -> compute fuel A res p = computeBig fuel A p).
Proof.
  unfold compute. repeat split.
  - intros ->. reflexivity.
  - intros ->. eexists. split; [reflexivity |].
    repeat split.
    intros r c Hrc. rewrite coeff_coeffRef_set.
    destruct (Nat.eqb_spec r 0) as [-> |]; [| reflexivity].
    destruct (Nat.eqb_spec c 0) as [-> |]; [| reflexivity].
    contradiction Hrc. reflexivity.
  - intros ->. reflexivity.
  - intros Hbig.
    destruct (rows A) as [| [| [| n]]]; try lia. reflexivity.
Qed.

End ComputeProperties.

(** ** The scaling loop *)

Section ScalingLoopProperties.
Context {RealScalar Scalar : Type} {RO : RealOps RealScalar}
        {SO : ScalarOps Scalar RealScalar} {SR : SquareRoot Scalar}.

(** A pass from [loop_state A k flag]: it continues to pass [k + 1], keeping
    the flag when the norm is not below the threshold and setting it
    otherwise, or it stops. *)
Lemma scaling_step_loop_state (A : Matrix Scalar) (k : nat) (flag : bool) :
  (below_threshold A k = false ->
   scaling_step A (loop_state A k flag) = Continue (loop_state A (S k) flag))
  /\ (below_threshold A k = true ->
      scaling_step A (loop_state A k flag) = Continue (loop_state A (S k) true)
      \/ exists r, scaling_step A (loop_state A k flag) = Break r
                   /\ sr_numberOfSquareRoots r = k)
  /\ (below_threshold A k = true -> flag = true ->
      exists r, scaling_step A (loop_state A k flag) = Break r
                /\ sr_numberOfSquareRoots r = k).
Proof.
  unfold below_threshold, norm_after, scaling_step.
  cbn [st_T st_hasExtraSquareRoot st_numberOfSquareRoots loop_state].
  repeat split.
  - intros ->. reflexivity.
  - intros ->.
    destruct (_ || flag); [right; eexists; split; reflexivity | left; reflexivity].
  - intros -> ->. rewrite orb_true_r. eexists; split; reflexivity.
Qed.

(** With the flag set, the loop stops at the next pass whose norm is below
    the threshold. *)
Lemma scaling_loop_flag_set (A : Matrix Scalar) :
  forall d k,
    below_threshold A (k + d) = true ->
    exists r,
      (forall fuel, d < fuel ->
                    scaling_loop fuel A (loop_state A k true) = Some r)
      /\ sr_numberOfSquareRoots r <= k + d.
Proof.
  induction d as [| d IH]; intros k Hbelow.
  - rewrite Nat.add_0_r in Hbelow.
    destruct (scaling_step_loop_state A k true) as [_ [_ Hstop]].
    destruct (Hstop Hbelow eq_refl) as [r [Hr Hn]].
    exists r. split; [| lia].
    intros [| fuel] Hfuel; [lia |]. cbn [scaling_loop]. rewrite Hr. reflexivity.
  - destruct (below_threshold A k) eqn:Hk.
    + destruct (scaling_step_loop_state A k true) as [_ [_ Hstop]].
      destruct (Hstop Hk eq_refl) as [r [Hr Hn]].
      exists r. split; [| lia].
      intros [| fuel] Hfuel; [lia |]. cbn [scaling_loop]. rewrite Hr. reflexivity.
    + destruct (scaling_step_loop_state A k true) as [Hgo _].
      destruct (IH (S k)) as [r [Hr Hn]].
      { replace (S k + d) with (k + S d) by lia. exact Hbelow. }
      exists r. split; [| lia].
      intros [| fuel] Hfuel; [lia |]. cbn [scaling_loop].
      rewrite (Hgo Hk). apply Hr. lia.
Qed.

(** Two passes with the norm below the threshold are enough for the loop to
    stop, whatever the flag. *)
Lemma scaling_loop_two_passes (A : Matrix Scalar) (flag : bool) :
  forall d1 k d2,
    below_threshold A (k + d1) = true ->
    below_threshold A (k + d1 + S d2) = true ->
    exists r,
      (forall fuel, d1 + S d2 < fuel ->
                    scaling_loop fuel A (loop_state A k flag) = Some r)
      /\ sr_numberOfSquareRoots r <= k + d1 + S d2.
Proof.
  induction d1 as [| d1 IH]; intros k d2 H1 H2.
  - rewrite Nat.add_0_r in H1, H2.
    destruct (scaling_step_loop_state A k flag) as [_ [Hbelow _]].
    destruct (Hbelow H1) as [Hgo | [r [Hr Hn]]].
    + destruct (scaling_loop_flag_set A d2 (S k)) as [r [Hr Hn]].
      { replace (S k + d2) with (k + S d2) by lia. exact H2. }
      exists r. split; [| lia].
      intros [| fuel] Hfuel; [lia |]. cbn [scaling_loop].
      rewrite Hgo. apply Hr. lia.
    + exists r. split; [| lia].
      intros [| fuel] Hfuel; [lia |]. cbn [scaling_loop]. rewrite Hr. reflexivity.
  - destruct (below_threshold A k) eqn:Hk.
    + destruct (scaling_step_loop_state A k flag) as [_ [Hbelow _]].
      destruct (Hbelow Hk) as [Hgo | [r [Hr Hn]]].
      * destruct (scaling_loop_flag_set A d1 (S k)) as [r [Hr Hn]].
        { replace (S k + d1) with (k + S d1) by lia. exact H1. }
        exists r. split; [| lia].
        intros [| fuel] Hfuel; [lia |]. cbn [scaling_loop].
        rewrite Hgo. apply Hr. lia.
      * exists r. split; [| lia].
        intros [| fuel] Hfuel; [lia |]. cbn [scaling_loop]. rewrite Hr. reflexivity.
    + destruct (scaling_step_loop_state A k flag) as [Hgo _].
      destruct (IH (S k) d2) as [r [Hr Hn]].
      { replace (S k + d1) with (k + S d1) by lia. exact H1. }
      { replace (S k + d1 + S d2) with (k + S d1 + S d2) by lia. exact H2. }
      exists r. split; [| lia].
      intros [| fuel] Hfuel; [lia |]. cbn [scaling_loop].
      rewrite (Hgo Hk). apply Hr. lia.
Qed.

(** While the norm stays at or above the threshold the loop goes on. *)
Lemma scaling_loop_goes_on (A : Matrix Scalar) (flag : bool) :
  forall n k,
    (forall j, k <= j < k + n -> below_threshold A j = false) ->
    scaling_loop n A (loop_state A k flag) = None.
Proof.
  induction n as [| n IH]; intros k Habove; [reflexivity |].
  cbn [scaling_loop].
  destruct (scaling_step_loop_state A k flag) as [Hgo _].
  rewrite Hgo by (apply Habove; lia).
  apply IH. intros j Hj. apply Habove. lia.
Qed.

(** If the norm is below the threshold from some pass on, it is so at two
    passes. *)
Lemma eventually_below_reaches (A : Matrix Scalar) (K : nat) :
  (forall k, K <= k -> below_threshold A k = true) ->
  square_roots_reach_threshold A K (S K).
Proof.
  intros Hall. split; [lia | split; apply Hall; lia].
Qed.


Lemma state_at_pass_loop_state (A : Matrix Scalar) :
  forall k st,
    state_at_pass A k = Some st ->
    st = loop_state A k (existsb (below_threshold A) (seq 0 k)).
Proof.
  induction k as [| k IH]; intros st Hst.
  - cbn in Hst. injection Hst as <-. reflexivity.
  - cbn [state_at_pass] in Hst.
    destruct (state_at_pass A k) as [st0 |]; [| discriminate].
    rewrite (IH st0 eq_refl) in Hst.
    rewrite seq_S, existsb_app. cbn [existsb Nat.add].
    rewrite orb_false_r.
    set (flag := existsb (below_threshold A) (seq 0 k)) in *.
    destruct (scaling_step_loop_state A k flag) as [Hgo [Hbelow _]].
    destruct (below_threshold A k) eqn:Hk.
    + rewrite orb_true_r.
      destruct (Hbelow eq_refl) as [Hc | [r [Hr _]]]; rewrite ?Hc, ?Hr in Hst.
      * injection Hst as <-. reflexivity.
      * discriminate.
    + rewrite orb_false_r. rewrite (Hgo eq_refl) in Hst.
      injection Hst as <-. reflexivity.
Qed.

(** C4 (as amended): once the norm of [I - W] is below the threshold, so
    that the degrees [d] and [d2] are computed, the loop stops at once with
    [degree = d] when [d - d2 <= 1], the first time included; when
    [d - d2 > 1] it stops with [degree = d] if [hasExtraSquareRoot] is set
    and otherwise sets it, replaces [W] by its square root and increments
    the count.  When the norm is not below the threshold, [W] is replaced by
    its square root and the count incremented, the flag unchanged.  In a run
    of the loop the flag is set exactly when an earlier pass had its norm
    below the threshold. *)
Theorem scaling_step_behaviour (A : Matrix Scalar) (st : @ScalingState Scalar) :
  let IminusT := msub (Identity (rows A) (cols A)) (st_T st) in
  let normIminusT := colsum_norm IminusT in
  let d := matrix_power_get_pade_degree normIminusT in
  let d2 := matrix_power_get_pade_degree (rdiv normIminusT (of_int 2)) in
  let stop := Break {| sr_degree := d;
                       sr_IminusT := IminusT;
                       sr_numberOfSquareRoots := st_numberOfSquareRoots st |} in
  let square_root := fun flag =>
    Continue {| st_T := upper (sqrtTriangular (st_T st));
                st_numberOfSquareRoots := S (st_numberOfSquareRoots st);
                st_hasExtraSquareRoot := flag |} in
  (rltb normIminusT computeBig_maxNormForPade = true ->
   ((Z.of_nat d - Z.of_nat d2 <= 1)%Z -> scaling_step A st = stop)
   /\ ((Z.of_nat d - Z.of_nat d2 > 1)%Z -> st_hasExtraSquareRoot st = true ->
       scaling_step A st = stop)
   /\ ((Z.of_nat d - Z.of_nat d2 > 1)%Z -> st_hasExtraSquareRoot st = false ->
       scaling_step A st = square_root true))
  /\ (rltb normIminusT computeBig_maxNormForPade = false ->
      scaling_step A st = square_root (st_hasExtraSquareRoot st))
  /\ (forall k st',
         state_at_pass A k = Some st' ->
         st_numberOfSquareRoots st' = k
         /\ st_hasExtraSquareRoot st' = existsb (below_threshold A) (seq 0 k)).
Proof.
  cbv zeta. unfold scaling_step, take_square_root.
  split; [| split].
  - intros ->. repeat split.
    + intros Hle. apply Z.leb_le in Hle. rewrite Hle. reflexivity.
    + intros _ ->. rewrite orb_true_r. reflexivity.
    + intros Hgt ->. rewrite orb_false_r.
      match goal with
      | |- context [(?x <=? 1)%Z] => destruct (Z.leb_spec x 1)
      end; [lia | reflexivity].
  - intros ->. reflexivity.
  - intros k st' Hst. rewrite (state_at_pass_loop_state A k st' Hst). split; reflexivity.
Qed.

End ScalingLoopProperties.

(** ** Worked cases over the reals *)

Lemma Rpower_nat (x : R) (n : nat) (y : R) :
  (0 < x)%R -> y = INR n -> Rpower x y = (x ^ n)%R.
Proof. intros Hx ->. apply Rpower_pow. exact Hx. Qed.

Lemma Rpower_half (x r : R) :
  (0 <= r)%R -> (0 < x)%R -> x = (r * r)%R -> Rpower x (/ 2) = r.
Proof.
  intros Hr Hx ->. rewrite Rpower_sqrt by exact Hx. apply sqrt_square. exact Hr.
Qed.

Lemma Rabs_of_pos (x : R) : (0 <= x)%R -> Rabs x = x.
Proof. intros Hx. apply Rabs_pos_eq. exact Hx. Qed.

Section RealCases.
Local Existing Instances RRealOps RScalarOps RElementaryOps.

(** C1, the code at [T = [[2,5],[0,2]]], [p = 3]: the diagonal is [8, 8] and
    the super-diagonal entry is [3 * pow(5, 2) = 75], not
    [3 * pow(2, 2) * 5 = 60]. *)
Lemma compute2x2_equal_eigenvalues_2_5_2 :
  let output := compute2x2 T_equal zero2 3%R in
  coeff output 0 0 = 8%R /\ coeff output 0 1 = 75%R /\ coeff output 1 1 = 8%R
  /\ coeff output 1 0 = 0%R /\ coeff output 0 1 <> 60%R.
Proof.
  cbv zeta.
  assert (H01 : coeff (compute2x2 T_equal zero2 3%R) 0 1 = 75%R).
  { rewrite (equal_diagonal_superdiagonal T_equal zero2 3%R 1).
    - cbn. rewrite (Rpower_nat 5 2) by (cbn; lra). lra.
    - cbn. lia.
    - cbn. destruct (Req_dec_T 2 2); [reflexivity | lra]. }
  repeat split.
  - rewrite compute2x2_diagonal by (cbn; lia). cbn.
    rewrite (Rpower_nat 2 3) by (cbn; lra). lra.
  - exact H01.
  - rewrite compute2x2_diagonal by (cbn; lia). cbn.
    rewrite (Rpower_nat 2 3) by (cbn; lra). lra.
  - rewrite compute2x2_frame by lia. reflexivity.
  - rewrite H01. lra.
Qed.

(** C2, the code at [T = [[2,5],[0,2]]], [p = 1]: [compute] goes through
    [compute2x2], which leaves [1 * pow(5, 0) = 1] above the diagonal where
    [T] holds 5. *)
Lemma compute_exponent_one_2_5_2 (TS : TriangularSolver R) (SR : SquareRoot R)
      (fuel : nat) :
  compute fuel T_equal zero2 1%R = Some (compute2x2 T_equal zero2 1%R)
  /\ coeff (compute2x2 T_equal zero2 1%R) 0 1 = 1%R
  /\ coeff T_equal 0 1 = 5%R.
Proof.
  split; [reflexivity |]. split; [| reflexivity].
  rewrite (equal_diagonal_superdiagonal T_equal zero2 1%R 1).
  - cbn. rewrite (Rpower_nat 5 0) by (cbn; lra). lra.
  - cbn. lia.
  - cbn. destruct (Req_dec_T 2 2); [reflexivity | lra].
Qed.

Lemma T_separated_is_separated :
  rltb (rmul (of_int 2) (sabs (coeff T_separated (1 - 1) (1 - 1))))
       (sabs (coeff T_separated 1 1)) = true.
Proof.
  cbn. rewrite !Rabs_of_pos by lra.
  destruct (Rlt_dec (2 * 4) 9); [reflexivity | lra].
Qed.

(** C6 at [T = [[4,1],[0,9]]], [p = 0.5] with the output starting as zero:
    the result is [[2, 0.2], [0, 3]]. *)
Lemma well_separated_4_1_9 :
  let output := compute2x2 T_separated zero2 (1 / 2)%R in
  coeff output 0 0 = 2%R /\ coeff output 0 1 = (2 / 10)%R
  /\ coeff output 1 0 = 0%R /\ coeff output 1 1 = 3%R.
Proof.
  cbv zeta.
  assert (H00 : coeff (compute2x2 T_separated zero2 (1 / 2)%R) 0 0 = 2%R).
  { rewrite compute2x2_diagonal by (cbn; lia). cbn.
    replace (1 / 2)%R with (/ 2)%R by lra. apply Rpower_half; lra. }
  assert (H11 : coeff (compute2x2 T_separated zero2 (1 / 2)%R) 1 1 = 3%R).
  { rewrite compute2x2_diagonal by (cbn; lia). cbn.
    replace (1 / 2)%R with (/ 2)%R by lra. apply Rpower_half; lra. }
  repeat split; try assumption.
  - pose proof (@well_separated_superdiagonal R R _ _ _ RScalarLaws
                  T_separated zero2 (1 / 2)%R 1) as Hsep.
    cbv zeta in Hsep. change (1 - 1) with 0 in Hsep.
    rewrite Hsep.
    + rewrite H00, H11. cbn. lra.
    + cbn. lia.
    + left. exact T_separated_is_separated.
  - rewrite compute2x2_frame by lia. reflexivity.
Defined.

Lemma T_close_is_close :
  superdiag_case (coeff T_close (1 - 1) (1 - 1)) (coeff T_close 1 1)
  = CloseMagnitudes.
Proof.
  apply superdiag_case_close. cbn. rewrite !Rabs_of_pos by lra.
  destruct (Req_dec_T 2 3); [lra |].
  destruct (Rlt_dec (2 * 2) 3); [lra |].
  destruct (Rlt_dec (2 * 3) 2); [lra |].
  repeat split.
Qed.

(** In exact arithmetic the hyperbolic sine formula at [2, 3] with [p = 2]
    is the divided difference [(9 - 4) / (3 - 2)]. *)
Lemma close_formula_value :
  (2 * 1 * exp (0.5 * 2 * (ln 3 + ln 2)) * sinh (2 * Ratanh2 (3 - 2) (3 + 2))
   / (3 - 2))%R = 5%R.
Proof.
  unfold Ratanh2.
  replace ((3 + 2 + (3 - 2)) / (3 + 2 - (3 - 2)))%R with (3 / 2)%R by lra.
  replace (2 * (Q2R 0.5 * ln (3 / 2)))%R with (ln (3 / 2))%R
    by (unfold Q2R; cbn; lra).
  replace (0.5 * 2 * (ln 3 + ln 2))%R with (ln 3 + ln 2)%R by lra.
  unfold sinh. rewrite exp_plus, exp_Ropp, !exp_ln by lra. lra.
Qed.

(** C5 at [T = [[2,1],[0,3]]], [p = 2]: the pair is unequal and not
    well-separated, the unwinding number is 0 and the super-diagonal entry,
    computed through the hyperbolic sine, is 5. *)
Lemma close_magnitudes_2_1_3 :
  superdiag_case (coeff T_close 0 0) (coeff T_close 1 1) = CloseMagnitudes
  /\ unwinding_number (fun k => slog (coeff T_close k k)) 1 = 0%Z
  /\ coeff (compute2x2 T_close zero2 2%R) 0 1 = 5%R.
Proof.
  pose proof (@close_magnitudes_superdiagonal R R _ _ _ RScalarLaws RRealLaws
                T_close zero2 2%R 1) as Hclose.
  cbv zeta in Hclose. change (1 - 1) with 0 in Hclose.
  destruct Hclose as [Hval Hu].
  - cbn; lia.
  - exact T_close_is_close.
  - split; [exact T_close_is_close |]. split.
    + unfold unwinding_number. rewrite (simag_ssub (ScalarLaws := RScalarLaws)).
      apply Hu. reflexivity.
    + rewrite Hval. cbn. apply close_formula_value.
Defined.

(** C10 at [T = [[4,1],[0,9]]], [p = 0.5]: the run with checked divisions
    returns the result of [compute2x2]. *)
Lemma compute2x2_divisions_defined_4_1_9 :
  compute2x2_checked T_separated zero2 (1 / 2)%R
  = Some (compute2x2 T_separated zero2 (1 / 2)%R).
Proof.
  apply (proj1 (@compute2x2_divisions_defined R R _ _ _ RScalarLaws RRealLaws
                  T_separated zero2 (1 / 2)%R)).
Defined.

End RealCases.

Section TracedCases.
Local Existing Instances Qdouble TracedScalarOps TracedElementaryOps.

(** C6, the claim as stated fails when one magnitude is exactly double the
    other: at [T = [[1,1],[0,2]]] the solver takes the third branch, and the
    expression it evaluates for the super-diagonal entry is the hyperbolic
    sine formula, not the divided difference. *)
Lemma exact_double_takes_sinh_branch :
  rleb (rmul (of_int 2) (sabs (coeff T_double 0 0))) (sabs (coeff T_double 1 1)) = true
  /\ superdiag_case (coeff T_double 0 0) (coeff T_double 1 1) = CloseMagnitudes
  /\ coeff (compute2x2 T_double zero2_traced 0.5%Q) 0 1
     = Div (Mul (Mul (Scale 2 (Lit 1))
                     (Exp (Scale (0.5 * 0.5) (Add (Log (Lit 2)) (Log (Lit 1))))))
                (Sinh (Scale 0.5 (Atanh2 (Sub (Lit 2) (Lit 1))
                                         (Add (Lit 2) (Lit 1))))))
           (Sub (Lit 2) (Lit 1))
  /\ coeff (compute2x2 T_double zero2_traced 0.5%Q) 0 1
     <> Div (Mul (coeff T_double 0 1)
                 (Sub (coeff (compute2x2 T_double zero2_traced 0.5%Q) 1 1)
                      (coeff (compute2x2 T_double zero2_traced 0.5%Q) 0 0)))
            (Sub (coeff T_double 1 1) (coeff T_double 0 0)).
Proof.
  split; [vm_compute; reflexivity |]. split; [vm_compute; reflexivity |].
  split; [vm_compute; reflexivity |].
  intros H. vm_compute in H. discriminate H.
Qed.

End TracedCases.

Section RationalCases.
Local Existing Instances Qdouble QdoubleScalarOps unit3_square_root.

(** [unit_sqrt3] is a square root: its square is the unit upper triangular
    matrix it was given. *)
Lemma unit_sqrt3_squares (t : Matrix Q) (i j : nat) :
  (coeff t 0 0 == 1)%Q -> (coeff t 1 1 == 1)%Q -> (coeff t 2 2 == 1)%Q ->
  i <= j < 3 ->
  (coeff (upper_times (unit_sqrt3 t)) i j == coeff t i j)%Q.
Proof.
  intros H00 H11 H22 Hij.
  destruct i as [| [| [| i]]]; destruct j as [| [| [| j]]]; try lia;
    cbn; rewrite ?H00, ?H11, ?H22; field.
Qed.

(** One square root of a unit upper triangular matrix, entry by entry. *)
Lemma sqrt_iterate_S_01 (A : Matrix Q) (k : nat) :
  coeff (sqrt_iterate A (S k)) 0 1 = (coeff (sqrt_iterate A k) 0 1 / 2)%Q.
Proof. reflexivity. Qed.

Lemma sqrt_iterate_S_12 (A : Matrix Q) (k : nat) :
  coeff (sqrt_iterate A (S k)) 1 2 = (coeff (sqrt_iterate A k) 1 2 / 2)%Q.
Proof. reflexivity. Qed.

Lemma sqrt_iterate_S_02 (A : Matrix Q) (k : nat) :
  coeff (sqrt_iterate A (S k)) 0 2
  = ((coeff (sqrt_iterate A k) 0 2
      - coeff (sqrt_iterate A k) 0 1 / 2 * (coeff (sqrt_iterate A k) 1 2 / 2)) / 2)%Q.
Proof. reflexivity. Qed.

Lemma Qabs_half (x : Q) : (Qabs (x / 2) == Qabs x * (1 # 2))%Q.
Proof. unfold Qdiv. rewrite Qabs_Qmult. reflexivity. Qed.

Lemma unit3_potential_nonneg (T : Matrix Q) : (0 <= unit3_potential T)%Q.
Proof.
  unfold unit3_potential.
  pose proof (Qabs_nonneg (coeff T 0 1)). pose proof (Qabs_nonneg (coeff T 1 2)).
  pose proof (Qabs_nonneg (coeff T 0 2)).
  assert (0 <= Qabs (coeff T 0 1) * Qabs (coeff T 1 2))%Q
    by (apply Qmult_le_0_compat; assumption).
  lra.
Qed.

(** Each square root at least halves the potential. *)
Lemma unit3_potential_halves (A : Matrix Q) (k : nat) :
  (unit3_potential (sqrt_iterate A (S k))
   <= unit3_potential (sqrt_iterate A k) * (1 # 2))%Q.
Proof.
  unfold unit3_potential.
  rewrite sqrt_iterate_S_01, sqrt_iterate_S_12, sqrt_iterate_S_02.
  set (a := coeff (sqrt_iterate A k) 0 1).
  set (b := coeff (sqrt_iterate A k) 1 2).
  set (c := coeff (sqrt_iterate A k) 0 2).
  rewrite !Qabs_half.
  assert (Hc : (Qabs (c - a / 2 * (b / 2)) <= Qabs c + Qabs a * Qabs b * (1 # 4))%Q).
  { setoid_replace (c - a / 2 * (b / 2))%Q with (c + - (a * b * (1 # 4)))%Q by field.
    eapply Qle_trans; [apply Qabs_triangle |].
    rewrite Qabs_opp, !Qabs_Qmult. apply Qle_refl. }
  pose proof (Qabs_nonneg a) as Ha. pose proof (Qabs_nonneg b) as Hb.
  assert (Hab : (0 <= Qabs a * Qabs b)%Q) by (apply Qmult_le_0_compat; assumption).
  nra.
Qed.

(** So the potential after [k] square roots is at most the initial one
    divided by [k + 1]. *)
Lemma unit3_potential_bound (A : Matrix Q) (k : nat) :
  (unit3_potential (sqrt_iterate A k) * inject_Z (Z.of_nat (S k))
   <= unit3_potential (sqrt_iterate A 0))%Q.
Proof.
  induction k as [| k IH].
  - change (inject_Z (Z.of_nat 1)) with 1%Q. lra.
  - pose proof (unit3_potential_halves A k) as Hhalf.
    pose proof (unit3_potential_nonneg (sqrt_iterate A k)) as Hk.
    pose proof (unit3_potential_nonneg (sqrt_iterate A (S k))) as HSk.
    replace (Z.of_nat (S (S k))) with (Z.of_nat (S k) + 1)%Z by lia.
    rewrite inject_Z_plus.
    assert (Hn : (1 <= inject_Z (Z.of_nat (S k)))%Q).
    { change 1%Q with (inject_Z 1). rewrite <- Zle_Qle. lia. }
    change (inject_Z 1) with 1%Q.
    nra.
Qed.

Lemma Qabs_zero_minus (x : Q) : (Qabs (inject_Z 0 - x) == Qabs x)%Q.
Proof.
  setoid_replace (inject_Z 0 - x)%Q with (- x)%Q by (change (inject_Z 0) with 0%Q; ring).
  apply Qabs_opp.
Qed.

Lemma Qle_bool_lt_false (x y : Q) : (x < y)%Q -> Qle_bool y x = false.
Proof.
  intros Hlt. destruct (Qle_bool y x) eqn:Hle; [| reflexivity].
  apply Qle_bool_iff in Hle. lra.
Qed.

(** After a square root the matrix has unit diagonal, and the norm of
    [I - T] is at most the potential. *)
Lemma below_threshold_unit3 (A : Matrix Q) (k : nat) :
  rows A = 3 -> cols A = 3 ->
  (unit3_potential (sqrt_iterate A (S k)) < computeBig_maxNormForPade)%Q ->
  below_threshold A (S k) = true.
Proof.
  intros Hr Hc Hpot.
  unfold below_threshold, norm_after. rewrite Hr, Hc.
  unfold unit3_potential in Hpot.
  set (T := sqrt_iterate A (S k)) in *.
  assert (H00 : coeff T 0 0 = 1%Q) by reflexivity.
  assert (H11 : coeff T 1 1 = 1%Q) by reflexivity.
  assert (H22 : coeff T 2 2 = 1%Q) by reflexivity.
  assert (H10 : coeff T 1 0 = 0%Q) by reflexivity.
  assert (H20 : coeff T 2 0 = 0%Q) by reflexivity.
  assert (H21 : coeff T 2 1 = 0%Q) by reflexivity.
  clearbody T.
  unfold colsum_norm, colwise_abs_sum, rmaxCoeff, rsum.
  cbn [rows cols msub Identity coeff seq map fold_left Nat.eqb
       sabs ssub s_of_int radd rltb QdoubleScalarOps QScalarOps Qdouble QRealOps].
  rewrite H00, H11, H22, H10, H20, H21.
  change (Qabs (inject_Z 1 - 1)) with 0%Q.
  change (Qabs (inject_Z 0 - 0)) with 0%Q.
  pose proof (Qabs_zero_minus (coeff T 0 1)) as E01.
  pose proof (Qabs_zero_minus (coeff T 1 2)) as E12.
  pose proof (Qabs_zero_minus (coeff T 0 2)) as E02.
  pose proof (Qabs_nonneg (coeff T 0 1)) as P01.
  pose proof (Qabs_nonneg (coeff T 1 2)) as P12.
  pose proof (Qabs_nonneg (coeff T 0 2)) as P02.
  assert (Pab : (0 <= Qabs (coeff T 0 1) * Qabs (coeff T 1 2))%Q)
    by (apply Qmult_le_0_compat; assumption).
  assert (Hthr : (0 < computeBig_maxNormForPade)%Q) by reflexivity.
  set (c0 := (0 + 0 + 0)%Q).
  set (c1 := (Qabs (inject_Z 0 - coeff T 0 1) + 0 + 0)%Q).
  set (c2 := (Qabs (inject_Z 0 - coeff T 0 2) + Qabs (inject_Z 0 - coeff T 1 2) + 0)%Q).
  assert (H0 : Qle_bool computeBig_maxNormForPade c0 = false) by reflexivity.
  assert (H1 : Qle_bool computeBig_maxNormForPade c1 = false).
  { apply Qle_bool_lt_false. unfold c1. rewrite E01. lra. }
  assert (H2 : Qle_bool computeBig_maxNormForPade c2 = false).
  { apply Qle_bool_lt_false. unfold c2. rewrite E02, E12. lra. }
  destruct (negb (Qle_bool c1 c0)); destruct (negb (Qle_bool c2 _));
    rewrite ?H0, ?H1, ?H2; reflexivity.
Qed.

(** From some pass on the potential is below the threshold. *)
Lemma unit3_potential_small (A : Matrix Q) :
  exists K, forall k, K <= k ->
    (unit3_potential (sqrt_iterate A k) < computeBig_maxNormForPade)%Q.
Proof.
  set (thr := @computeBig_maxNormForPade Q Qdouble).
  set (P0 := unit3_potential (sqrt_iterate A 0)).
  assert (Hthr : (0 < thr)%Q) by reflexivity.
  assert (HP0 : (0 <= P0)%Q) by apply unit3_potential_nonneg.
  assert (Hq : (0 <= P0 / thr)%Q).
  { apply Qle_shift_div_l; [exact Hthr | lra]. }
  exists (Z.to_nat (Qfloor (P0 / thr))).
  intros k Hk.
  pose proof (unit3_potential_bound A k) as Hbound. fold P0 in Hbound.
  pose proof (unit3_potential_nonneg (sqrt_iterate A k)) as Hpos.
  pose proof (Qlt_floor (P0 / thr)) as Hfloor.
  assert (Hf0 : (0 <= Qfloor (P0 / thr))%Z).
  { change 0%Z with (Qfloor 0). apply Qfloor_resp_le. exact Hq. }
  assert (Hn : (inject_Z (Qfloor (P0 / thr) + 1) <= inject_Z (Z.of_nat (S k)))%Q).
  { rewrite <- Zle_Qle. lia. }
  assert (HP : (P0 < thr * inject_Z (Z.of_nat (S k)))%Q).
  { apply Qlt_le_trans with (thr * inject_Z (Qfloor (P0 / thr) + 1))%Q.
    - assert (Hne : ~ (thr == 0)%Q) by (intros H0; rewrite H0 in Hthr; discriminate).
      setoid_replace P0 with (P0 / thr * thr)%Q at 1 by (field; exact Hne).
      rewrite (Qmult_comm thr). apply Qmult_lt_r; assumption.
    - apply Qmult_le_l; assumption. }
  assert (Hk1 : (1 <= inject_Z (Z.of_nat (S k)))%Q).
  { change 1%Q with (inject_Z 1). rewrite <- Zle_Qle. lia. }
  fold thr.
  generalize dependent (inject_Z (Z.of_nat (S k))).
  generalize dependent (unit3_potential (sqrt_iterate A k)).
  intros Pk Hpos n Hbound Hn HP Hk1. nra.
Qed.

(** With [unit_sqrt3] as the collaborator, the exact square root of a unit
    upper triangular matrix, the scaling loop terminates on every 3 x 3
    rational input: the eigenvalues of the working matrix are all 1. *)
Lemma scaling_loop_terminates_unit3_all (A : Matrix Q) :
  rows A = 3 -> cols A = 3 ->
  exists fuel0 r,
    forall fuel, fuel0 <= fuel ->
                 scaling_loop fuel A (scaling_init A) = Some r.
Proof.
  intros Hr Hc.
  destruct (unit3_potential_small A) as [K HK].
  destruct (scaling_loop_two_passes A false (S K) 0 0) as [r [Hrun _]].
  - apply below_threshold_unit3; [exact Hr | exact Hc | apply HK; lia].
  - replace (0 + S K + 1) with (S (S K)) by lia.
    apply below_threshold_unit3; [exact Hr | exact Hc | apply HK; lia].
  - exists (S (S K + 1)), r. intros fuel Hfuel. apply Hrun. lia.
Qed.

(** C4, the claim as stated fails: at this input the first pass has its norm
    0.1 below the threshold and [d - d2 = 5 - 4 <= 1] for the first time, and
    the loop stops there with degree 5 and no square root taken; the loop as
    the specification words it takes one more square root and stops with
    degree 4. *)
Lemma scaling_loop_stops_at_first_pass :
  loop_outcome (scaling_loop 5 T_near_identity (scaling_init T_near_identity))
  = Some (5, 0)
  /\ loop_outcome (spec_scaling_loop 5 T_near_identity (scaling_init T_near_identity))
     = Some (4, 1).
Proof. split; vm_compute; reflexivity. Qed.

(** A run that takes the extra square root: the first pass has norm 0.22,
    where [d - d2 = 7 - 5 > 1]; the second stops with degree 5. *)
Lemma scaling_loop_extra_square_root :
  loop_outcome (scaling_loop 5 T_wide (scaling_init T_wide)) = Some (5, 1).
Proof. vm_compute. reflexivity. Qed.


End RationalCases.

(** ** What [compute2x2] writes and what it reads *)

Section BandProperties.
Context {RealScalar Scalar : Type} {RO : RealOps RealScalar}
        {SO : ScalarOps Scalar RealScalar} {EO : ElementaryOps Scalar RealScalar}.

Lemma compute2x2_body_dims (A : Matrix Scalar) (logTdiag : nat -> Scalar)
      (p : RealScalar) (res : Matrix Scalar) (i : nat) :
  rows (compute2x2_body A logTdiag p res i) = rows res
  /\ cols (compute2x2_body A logTdiag p res i) = cols res.
Proof.
  unfold compute2x2_body.
  destruct (superdiag_case _ _); split; reflexivity.
Qed.

Lemma compute2x2_dims (A res : Matrix Scalar) (p : RealScalar) :
  rows (compute2x2 A res p) = rows res /\ cols (compute2x2 A res p) = cols res.
Proof.
  unfold compute2x2.
  set (start := coeffRef_set res 0 0 (spow (coeff A 0 0) p)).
  change (rows res) with (rows start). change (cols res) with (cols start).
  generalize start. generalize (seq 1 (cols A - 1)).
  induction l as [| i l IH]; intros m; cbn [fold_left].
  - split; reflexivity.
  - destruct (IH (compute2x2_body A (fun k => slog (coeff A k k)) p m i)) as [Hr Hc].
    destruct (compute2x2_body_dims A (fun k => slog (coeff A k k)) p m i) as [Hr' Hc'].
    split; congruence.
Qed.

(** X1: [compute2x2] keeps the dimensions of [res] and changes no
    coefficient of it other than the diagonal entries [(k,k)] and the
    super-diagonal entries [(k-1,k)] of the columns [k <= m_A.cols() - 1]:
    every other entry, those below the diagonal included, is left as the
    caller passed it. *)
Theorem compute2x2_writes_band_only (A res : Matrix Scalar) (p : RealScalar) :
  rows (compute2x2 A res p) = rows res
  /\ cols (compute2x2 A res p) = cols res
  /\ forall r c,
      ~ ((c = r \/ c = S r) /\ c <= cols A - 1) ->
      coeff (compute2x2 A res p) r c = coeff res r c.
Proof.
  destruct (compute2x2_dims A res p) as [Hr Hc].
  split; [exact Hr |]. split; [exact Hc |].
  intros r c Hout. rewrite compute2x2_coeff. unfold compute2x2_entry.
  destruct (Nat.eqb_spec r c), (Nat.leb_spec r (cols A - 1)),
    (Nat.eqb_spec c (S r)), (Nat.leb_spec c (cols A - 1));
    cbn [andb]; try reflexivity; exfalso; apply Hout; lia.
Qed.

(** X2: a call of [compute2x2] on the output of an earlier call with another
    exponent gives, coefficient by coefficient, what the call gives on the
    original matrix: the entries it writes depend on [m_A] and [p] only, so
    the passes of the loop of [computeBig] at the exponents [p / 2^k] leave
    no trace on the band once the last call at [p] has run. *)
Theorem compute2x2_last_exponent_wins (A res : Matrix Scalar) (p q : RealScalar) :
  forall r c,
    coeff (compute2x2 A (compute2x2 A res q) p) r c
    = coeff (compute2x2 A res p) r c.
Proof.
  intros r c. rewrite !compute2x2_coeff. unfold compute2x2_entry.
  destruct ((r =? c)%nat && (r <=? cols A - 1)%nat) eqn:Hd; [reflexivity |].
  destruct ((c =? S r)%nat && (c <=? cols A - 1)%nat) eqn:Hs; [reflexivity |].
  rewrite compute2x2_coeff. unfold compute2x2_entry. rewrite Hd, Hs. reflexivity.
Qed.

End BandProperties.

Section LowerPartNeverRead.
Context {RealScalar Scalar : Type} {RO : RealOps RealScalar}
        {SO : ScalarOps Scalar RealScalar} {EO : ElementaryOps Scalar RealScalar}
        {TS : TriangularSolver Scalar} {SR : SquareRoot Scalar}.

Lemma upper_same_upper_part (A A' : Matrix Scalar) :
  same_upper_part A A' -> upper A = upper A'.
Proof.
  intros [Hr [Hc Hu]]. unfold upper. rewrite Hr, Hc. f_equal.
  apply functional_extensionality; intros i.
  apply functional_extensionality; intros j.
  destruct (Nat.ltb_spec j i); [reflexivity | apply Hu; lia].
Qed.

Lemma compute2x2_same_upper_part (A A' res : Matrix Scalar) (p : RealScalar) :
  same_upper_part A A' -> compute2x2 A res p = compute2x2 A' res p.
Proof.
  intros [Hr [Hc Hu]]. unfold compute2x2. rewrite Hc, (Hu 0 0) by lia.
  assert (Hlog : (fun k => slog (coeff A k k)) = (fun k => slog (coeff A' k k))).
  { apply functional_extensionality; intros k. rewrite (Hu k k) by lia. reflexivity. }
  rewrite Hlog. f_equal.
  apply functional_extensionality; intros m.
  apply functional_extensionality; intros i.
  unfold compute2x2_body, close_superdiag, close_numerator.
  rewrite (Hu (i - 1) (i - 1)), (Hu i i), (Hu (i - 1) i) by lia. reflexivity.
Qed.

Lemma scaling_loop_same_dims (A A' : Matrix Scalar) :
  rows A = rows A' -> cols A = cols A' ->
  forall fuel st, scaling_loop fuel A st = scaling_loop fuel A' st.
Proof.
  intros Hr Hc. induction fuel as [| fuel IH]; intros st; [reflexivity |].
  cbn [scaling_loop]. unfold scaling_step. rewrite Hr, Hc.
  destruct (rltb _ _); [destruct (_ || _) |]; try reflexivity; apply IH.
Qed.

Lemma unscale_same_upper_part (A A' : Matrix Scalar) (p : RealScalar) :
  same_upper_part A A' ->
  forall n res, unscale A p n res = unscale A' p n res.
Proof.
  intros Hsame. induction n as [| n IH]; intros res; [reflexivity |].
  cbn [unscale]. rewrite (compute2x2_same_upper_part A A' _ _ Hsame). apply IH.
Qed.

(** X3: [compute] never reads a coefficient of [m_A] below the diagonal:
    two inputs of the same dimensions that agree on and above the diagonal
    give the same result (and the same non-termination), whatever the
    dimension, the exponent and the collaborators. *)
Theorem compute_ignores_lower_part (fuel : nat) (A A' res : Matrix Scalar)
        (p : RealScalar) :
  same_upper_part A A' ->
  compute fuel A res p = compute fuel A' res p.
Proof.
  intros Hsame. pose proof Hsame as [Hr [Hc Hu]].
  unfold compute, computeBig. rewrite <- Hr, (Hu 0 0) by lia.
  rewrite (compute2x2_same_upper_part A A' res p Hsame).
  unfold scaling_init. rewrite (upper_same_upper_part A A' Hsame).
  rewrite (scaling_loop_same_dims A A' Hr Hc).
  destruct (rows A) as [| [| [| n]]]; try reflexivity.
  destruct (scaling_loop _ _ _) as [r |]; [| reflexivity].
  rewrite (unscale_same_upper_part A A' p Hsame).
  rewrite (compute2x2_same_upper_part A A' _ p Hsame). reflexivity.
Qed.

End LowerPartNeverRead.

(** ** What the scaling loop hands to [computePade] *)

Section LoopResult.
Context {RealScalar Scalar : Type} {RO : RealOps RealScalar}
        {SO : ScalarOps Scalar RealScalar} {SR : SquareRoot Scalar}.

(** What a pass at [loop_state A k flag] that reaches the [break] returns. *)
Lemma scaling_step_break (A : Matrix Scalar) (k : nat) (flag : bool)
      (r : @ScalingResult Scalar) :
  scaling_step A (loop_state A k flag) = Break r ->
  below_threshold A k = true
  /\ sr_numberOfSquareRoots r = k
  /\ sr_IminusT r = msub (Identity (rows A) (cols A)) (sqrt_iterate A k)
  /\ sr_degree r = matrix_power_get_pade_degree (norm_after A k)
  /\ (flag = false ->
      (Z.of_nat (matrix_power_get_pade_degree (norm_after A k))
       - Z.of_nat (matrix_power_get_pade_degree
                     (rdiv (norm_after A k) (of_int 2))) <= 1)%Z).
Proof.
  unfold scaling_step, below_threshold, norm_after.
  cbn [st_T st_hasExtraSquareRoot st_numberOfSquareRoots loop_state].
  destruct (rltb _ _); [| discriminate].
  destruct (_ || flag) eqn:Hor; [| discriminate].
  intros H. injection H as <-. repeat split.
  intros ->. rewrite orb_false_r in Hor. apply Z.leb_le. exact Hor.
Qed.

(** A run of the loop entered at pass [k]. *)
Lemma scaling_loop_from_pass (A : Matrix Scalar) :
  forall fuel k flag r,
    scaling_loop fuel A (loop_state A k flag) = Some r ->
    let n := sr_numberOfSquareRoots r in
    k <= n < k + fuel
    /\ below_threshold A n = true
    /\ sr_IminusT r = msub (Identity (rows A) (cols A)) (sqrt_iterate A n)
    /\ sr_degree r = matrix_power_get_pade_degree (norm_after A n)
    /\ (flag = true -> forall j, k <= j < n -> below_threshold A j = false)
    /\ (forall j1 j2, k <= j1 < j2 -> j2 < n ->
                      below_threshold A j1 = true -> below_threshold A j2 = false)
    /\ (flag = false ->
        (forall j, k <= j < n -> below_threshold A j = false) ->
        (Z.of_nat (matrix_power_get_pade_degree (norm_after A n))
         - Z.of_nat (matrix_power_get_pade_degree
                       (rdiv (norm_after A n) (of_int 2))) <= 1)%Z).
Proof.
  induction fuel as [| fuel IH]; intros k flag r Hrun; [discriminate |].
  cbn [scaling_loop] in Hrun. cbv zeta.
  destruct (scaling_step A (loop_state A k flag)) as [r' | st'] eqn:Hstep.
  - injection Hrun as ->.
    destruct (scaling_step_break A k flag r Hstep) as [Hb [Hn [HI [Hd Hdiff]]]].
    rewrite Hn.
    split; [lia |]. split; [exact Hb |]. split; [exact HI |].
    split; [exact Hd |]. split; [intros; lia |]. split; [intros; lia |].
    intros Hf _. exact (Hdiff Hf).
  - destruct (scaling_step_loop_state A k flag) as [Hgo [Hbelow Hstop]].
    destruct (below_threshold A k) eqn:Hk.
    + destruct (Hbelow eq_refl) as [Hc | [r' [Hr' _]]]; [| congruence].
      rewrite Hc in Hstep. injection Hstep as <-.
      destruct flag.
      { destruct (Hstop eq_refl eq_refl) as [r' [Hr' _]]. congruence. }
      specialize (IH (S k) true r Hrun). cbv zeta in IH.
      destruct IH as [Hrange [Hb [HI [Hd [Hflag [Hpair _]]]]]].
      split; [lia |]. split; [exact Hb |]. split; [exact HI |].
      split; [exact Hd |]. split; [discriminate |]. split.
      * intros j1 j2 H12 H2n H1.
        destruct (Nat.eq_dec j1 k) as [-> | Hne].
        -- apply Hflag; [reflexivity | lia].
        -- apply (Hpair j1 j2); [lia | lia | exact H1].
      * intros _ Hnone. rewrite (Hnone k) in Hk by lia. discriminate.
    + rewrite (Hgo eq_refl) in Hstep. injection Hstep as <-.
      specialize (IH (S k) flag r Hrun). cbv zeta in IH.
      destruct IH as [Hrange [Hb [HI [Hd [Hflag [Hpair Hdiff]]]]]].
      split; [lia |]. split; [exact Hb |]. split; [exact HI |].
      split; [exact Hd |]. split; [| split].
      * intros Hf j Hj.
        destruct (Nat.eq_dec j k) as [-> | Hne]; [exact Hk |].
        apply Hflag; [exact Hf | lia].
      * intros j1 j2 H12 H2n H1.
        destruct (Nat.eq_dec j1 k) as [-> | Hne]; [congruence |].
        apply (Hpair j1 j2); [lia | lia | exact H1].
      * intros Hf Hnone. apply (Hdiff Hf). intros j Hj. apply Hnone. lia.
Qed.

(** X4: when the [while (true)] loop of [computeBig] stops, with [n] the
    final [numberOfSquareRoots]: fewer than [fuel] square roots were taken;
    [IminusT] is the identity minus the matrix obtained from the upper part
    of [m_A] by exactly [n] square roots; its norm is below the threshold of
    line 366; [degree] is the degree the selector gives for that norm; at
    most one pass before the last had its norm below the threshold (none is
    followed by a later one); and if no earlier pass had, the stop is due to
    [degree - degree2 <= 1]. *)
Theorem scaling_loop_result (fuel : nat) (A : Matrix Scalar)
        (r : @ScalingResult Scalar) :
  scaling_loop fuel A (scaling_init A) = Some r ->
  let n := sr_numberOfSquareRoots r in
  n < fuel
  /\ below_threshold A n = true
  /\ sr_IminusT r = msub (Identity (rows A) (cols A)) (sqrt_iterate A n)
  /\ sr_degree r = matrix_power_get_pade_degree (norm_after A n)
  /\ (forall j1 j2, j1 < j2 -> j2 < n ->
                    below_threshold A j1 = true -> below_threshold A j2 = false)
  /\ ((forall j, j < n -> below_threshold A j = false) ->
      (Z.of_nat (sr_degree r)
       - Z.of_nat (matrix_power_get_pade_degree
                     (rdiv (norm_after A n) (of_int 2))) <= 1)%Z).
Proof.
  intros Hrun.
  pose proof (scaling_loop_from_pass A fuel 0 false r Hrun) as H.
  cbv zeta in *. destruct H as [Hrange [Hb [HI [Hd [_ [Hpair Hdiff]]]]]].
  split; [lia |]. split; [exact Hb |]. split; [exact HI |].
  split; [exact Hd |]. split.
  - intros j1 j2 H12 H2n H1. apply (Hpair j1 j2); [lia | lia | exact H1].
  - intros Hnone. rewrite Hd. apply Hdiff; [reflexivity |].
    intros j Hj. apply Hnone. lia.
Qed.

Lemma computeBig_maxNormForPade_last :
  digits_match_overload ->
  @computeBig_maxNormForPade RealScalar RO = pade_threshold maxPadeDegree.
Proof.
  unfold digits_match_overload, computeBig_maxNormForPade, pade_threshold,
    maxPadeDegree, maxNormForPade_table.
  destruct float_kind; intros Hd.
  - destruct (Z.leb_spec digits 24); [reflexivity | lia].
  - destruct (Z.leb_spec digits 24); [lia |].
    destruct (Z.leb_spec digits 53); [reflexivity | lia].
  - rewrite Hd. reflexivity.
Qed.

Lemma pade_degree_within_last (n : RealScalar) :
  rleb n (pade_threshold maxPadeDegree) = true ->
  3 <= matrix_power_get_pade_degree n <= maxPadeDegree.
Proof.
  intros Hle.
  pose proof maxPadeDegree_ge_4 as Hmax.
  pose proof (pade_degree_loop_spec maxNormForPade_table n
                (maxPadeDegree + 1 - 3) 3) as Hspec.
  cbv zeta in Hspec.
  fold (pade_degree_for maxPadeDegree maxNormForPade_table n) in Hspec.
  fold (matrix_power_get_pade_degree n) in Hspec.
  destruct Hspec as [Hrange [Hbelow _]].
  split; [lia |].
  destruct (Nat.le_gt_cases (matrix_power_get_pade_degree n) maxPadeDegree)
    as [Hok | Hgt]; [exact Hok |].
  unfold pade_threshold in Hle.
  rewrite (Hbelow maxPadeDegree) in Hle by lia. discriminate.
Qed.

(** X6: for [float], [double] and a [long double] of the format of
    [double], with an [operator<] that implies [operator<=], the degree the
    scaling loop of [computeBig] passes to [computePade] lies between 3 and
    the maximum degree of the precision (4 or 7): the guard of line 366
    compares with the last threshold of the selector's table, so the
    selector is never asked about a norm it has no degree for and its
    out-of-range value (maximum + 1) never reaches [computePade]. *)
Theorem scaling_loop_degree_in_range (fuel : nat) (A : Matrix Scalar)
        (st : @ScalingState Scalar) (r : @ScalingResult Scalar) :
  digits_match_overload ->
  (forall a b : RealScalar, rltb a b = true -> rleb a b = true) ->
  scaling_loop fuel A st = Some r ->
  3 <= sr_degree r <= maxPadeDegree.
Proof.
  intros Hdigits Hlt. revert st.
  induction fuel as [| fuel IH]; intros st Hrun; [discriminate |].
  cbn [scaling_loop] in Hrun.
  destruct (scaling_step A st) as [r' | st'] eqn:Hstep; [| exact (IH st' Hrun)].
  injection Hrun as ->.
  unfold scaling_step in Hstep.
  destruct (rltb _ _) eqn:Hbelow; [| discriminate].
  destruct (_ || _); [| discriminate].
  injection Hstep as <-. cbn [sr_degree].
  apply pade_degree_within_last.
  rewrite <- (computeBig_maxNormForPade_last Hdigits).
  apply Hlt. exact Hbelow.
Qed.

End LoopResult.

Section BigBand.
Context {RealScalar Scalar : Type} {RO : RealOps RealScalar}
        {SO : ScalarOps Scalar RealScalar} {EO : ElementaryOps Scalar RealScalar}
        {TS : TriangularSolver Scalar} {SR : SquareRoot Scalar}.

(** X5: whenever [computeBig] returns, the diagonal and the first
    super-diagonal of its result are exactly what [compute2x2] writes for
    the exponent [p], whatever the Pade approximant, the square roots and
    the squarings produced: the last statement of [computeBig] overwrites
    that band.  So on the band a matrix of dimension 3 or more gets the
    values of the 2 x 2 formulas, the equal-eigenvalue branch included. *)
Theorem computeBig_band (fuel : nat) (A output : Matrix Scalar) (p : RealScalar) :
  computeBig fuel A p = Some output ->
  forall (res : Matrix Scalar) (r c : nat),
    (c = r \/ c = S r) -> c <= cols A - 1 ->
    coeff output r c = coeff (compute2x2 A res p) r c.
Proof.
  unfold computeBig. intros Hrun res r c Hband Hc.
  destruct (scaling_loop fuel A (scaling_init A)) as [sr |]; [| discriminate].
  injection Hrun as <-.
  rewrite !compute2x2_coeff. unfold compute2x2_entry.
  destruct (Nat.eqb_spec r c), (Nat.leb_spec r (cols A - 1)),
    (Nat.eqb_spec c (S r)), (Nat.leb_spec c (cols A - 1));
    cbn [andb]; try reflexivity; lia.
Qed.

(** X11: for every dimension from 1 on, when [compute] returns, the
    diagonal of its result holds the powers [pow(m_A(k,k), p)] of the
    diagonal of [m_A], each formed by one call of [std::pow]: the Pade
    approximant and the squarings of [computeBig] do not show there.  The
    input is square, as the constructor asserts. *)
Theorem compute_diagonal_powers (fuel : nat) (A res output : Matrix Scalar)
        (p : RealScalar) (k : nat) :
  rows A = cols A ->
  compute fuel A res p = Some output ->
  k < rows A ->
  coeff output k k = spow (coeff A k k) p.
Proof.
  intros Hsquare Hrun Hk. unfold compute in Hrun.
  destruct (rows A) as [| [| [| n]]] eqn:Hrows; [lia | | |].
  - injection Hrun as <-. replace k with 0 by lia. reflexivity.
  - injection Hrun as <-. apply compute2x2_diagonal. lia.
  - unfold computeBig in Hrun.
    destruct (scaling_loop fuel A (scaling_init A)) as [sr |]; [| discriminate].
    injection Hrun as <-. apply compute2x2_diagonal. lia.
Qed.

End BigBand.

(** ** The thresholds of the degree selector *)

Lemma increasing_nth (l : list Q) :
  increasing l = true ->
  forall i j, i <= j < length l -> (nth i l 0 <= nth j l 0)%Q.
Proof.
  induction l as [| a l IH]; intros Hinc i j Hij; [cbn in Hij; lia |].
  assert (Htail : increasing l = true).
  { destruct l as [| b l]; [reflexivity |].
    cbn [increasing] in Hinc. apply andb_true_iff in Hinc. apply Hinc. }
  assert (Hhead : forall j, j < length l -> (a <= nth j l 0)%Q).
  { intros j0 Hj0. destruct l as [| b l]; [cbn in Hj0; lia |].
    cbn [increasing] in Hinc. apply andb_true_iff in Hinc.
    destruct Hinc as [Hab _]. apply Qle_bool_iff in Hab.
    eapply Qle_trans; [exact Hab |].
    apply (IH Htail 0 j0). cbn [length] in *. lia. }
  destruct i as [| i], j as [| j]; cbn [nth length] in *.
  - apply Qle_refl.
  - apply Hhead. lia.
  - lia.
  - apply IH; [exact Htail | lia].
Qed.

Section Thresholds.
Context {RealScalar : Type} {RO : RealOps RealScalar}.

(** A property of the five tables of rationals, as stored, with their
    maximum degrees holds of the table and the maximum degree of the selected
    overload. *)
Lemma maxNormForPade_table_cases (P : list Q -> nat -> Prop) :
  P [ 2.8064004e-1; 4.3386528e-1 ]%Q 4 ->
  P [ 1.884160592658218e-2; 6.038881904059573e-2;
      1.239917516308172e-1; 1.999045567181744e-1;
      2.789358995219730e-1 ]%Q 7 ->
  P (map Qto_double maxNormForPade_extended_literals) 8 ->
  P (map Qto_double maxNormForPade_double_double_literals) 10 ->
  P (map Qto_double maxNormForPade_quad_literals) 10 ->
  exists l, @maxNormForPade_table RealScalar RO = map lit l
            /\ P l maxPadeDegree.
Proof.
  intros Hf Hd He Hdd Hq.
  assert (Hstored : forall l : list Q,
             map (@stored_in_double RealScalar RO) l = map lit (map Qto_double l)).
  { intros l. rewrite map_map. reflexivity. }
  unfold maxNormForPade_table, maxPadeDegree, maxNormForPade_extended,
    maxNormForPade_double_double, maxNormForPade_quad.
  destruct float_kind.
  - eexists; split; [reflexivity | exact Hf].
  - eexists; split; [reflexivity | exact Hd].
  - destruct (digits =? 53)%Z; [eexists; split; [reflexivity | exact Hd] |].
    destruct (digits <=? 64)%Z; [eexists; split; [apply Hstored | exact He] |].
    destruct (digits <=? 106)%Z; eexists; (split; [apply Hstored | assumption]).
Qed.

(** The thresholds increase with the degree. *)
Lemma pade_threshold_increasing (d1 d2 : nat) :
  rleb_orders_literals ->
  3 <= d1 <= d2 -> d2 <= maxPadeDegree ->
  rleb (pade_threshold d1) (pade_threshold d2) = true.
Proof.
  intros [_ Hlit] H1 H2.
  destruct (maxNormForPade_table_cases
              (fun l m => increasing l = true /\ length l = m - 2))
    as [l [Hl [Hinc Hlen]]]; try (split; vm_compute; reflexivity).
  unfold pade_threshold. rewrite Hl.
  assert (Hnth : forall i, i < length l ->
                           nth i (map lit l) (of_int 0) = lit (nth i l 0%Q)).
  { intros i Hi. rewrite (nth_indep _ (of_int 0) (lit 0%Q))
      by (rewrite length_map; exact Hi).
    apply map_nth. }
  rewrite !Hnth by lia.
  apply Hlit. apply increasing_nth; [exact Hinc | lia].
Qed.

(** X7: in every precision class the selector is a threshold test: for a
    degree [d] of the range (3 up to the maximum), the selected degree is at
    most [d] exactly when the norm does not exceed the tabulated threshold of
    [d].  It holds because each table is increasing; it needs of the real
    type that [operator<=] is transitive and that decimal literals keep
    their order. *)
Theorem pade_degree_threshold_test (n : RealScalar) (d : nat) :
  rleb_orders_literals ->
  3 <= d <= maxPadeDegree ->
  (matrix_power_get_pade_degree n <= d <-> rleb n (pade_threshold d) = true).
Proof.
  intros Hlaws Hd. pose proof Hlaws as [Htrans _].
  pose proof (pade_degree_loop_spec maxNormForPade_table n
                (maxPadeDegree + 1 - 3) 3) as Hspec.
  cbv zeta in Hspec.
  fold (pade_degree_for maxPadeDegree maxNormForPade_table n) in Hspec.
  fold (matrix_power_get_pade_degree n) in Hspec.
  destruct Hspec as [Hrange [Hbelow Hhit]].
  split.
  - intros Hle.
    apply (Htrans _ (pade_threshold (matrix_power_get_pade_degree n))).
    + apply Hhit. lia.
    + apply pade_threshold_increasing; [exact Hlaws | lia | lia].
  - intros Hle.
    destruct (Nat.le_gt_cases (matrix_power_get_pade_degree n) d)
      as [Hok | Hgt]; [exact Hok |].
    unfold pade_threshold in Hle. rewrite (Hbelow d) in Hle by lia. discriminate.
Qed.

(** A norm the last threshold does not admit gets the maximum degree plus
    one. *)
Lemma pade_degree_past_maximum (n : RealScalar) :
  rleb_orders_literals ->
  rleb n (pade_threshold maxPadeDegree) = false ->
  matrix_power_get_pade_degree n = maxPadeDegree + 1.
Proof.
  intros Hlaws Hlast. pose proof Hlaws as [Htrans _].
  pose proof maxPadeDegree_ge_4 as Hmax.
  pose proof (pade_degree_loop_spec maxNormForPade_table n
                (maxPadeDegree + 1 - 3) 3) as Hspec.
  cbv zeta in Hspec.
  fold (pade_degree_for maxPadeDegree maxNormForPade_table n) in Hspec.
  fold (matrix_power_get_pade_degree n) in Hspec.
  destruct Hspec as [Hrange [_ Hhit]].
  destruct (Nat.eq_dec (matrix_power_get_pade_degree n) (maxPadeDegree + 1))
    as [Heq | Hne]; [exact Heq |].
  assert (Hadmit : rleb n (pade_threshold maxPadeDegree) = true).
  { apply (Htrans _ (pade_threshold (matrix_power_get_pade_degree n))).
    - apply Hhit. lia.
    - apply pade_threshold_increasing; [exact Hlaws | lia | lia]. }
  congruence.
Qed.

End Thresholds.

(** ** Runs in exact rational arithmetic *)

Lemma Q_rltb_rleb (k : FloatKind) (d : Z) (a b : Q) :
  @rltb Q (QRealOps k d) a b = true -> @rleb Q (QRealOps k d) a b = true.
Proof.
  cbn. intros Hlt. apply negb_true_iff in Hlt. apply Qle_bool_false_lt in Hlt.
  apply Qle_bool_iff. apply Qlt_le_weak. exact Hlt.
Qed.

Lemma Q_rleb_orders_literals (k : FloatKind) (d : Z) :
  @rleb_orders_literals Q (QRealOps k d).
Proof.
  split; cbn.
  - intros a b c Hab Hbc. apply Qle_bool_iff in Hab. apply Qle_bool_iff in Hbc.
    apply Qle_bool_iff. eapply Qle_trans; eassumption.
  - intros q1 q2 Hle. apply Qle_bool_iff. exact Hle.
Qed.

Section RationalRuns.
Local Existing Instances Qdouble QdoubleScalarOps unit3_square_root.

(** X4 at the unit upper triangular matrix of ones: the loop stops after 3
    square roots with degree 6. *)
Lemma scaling_loop_result_unit3 :
  exists r,
    scaling_loop 9 T_unit3 (scaling_init T_unit3) = Some r
    /\ sr_numberOfSquareRoots r = 3
    /\ sr_degree r = 6
    /\ below_threshold T_unit3 (sr_numberOfSquareRoots r) = true
    /\ sr_IminusT r
       = msub (Identity 3 3) (sqrt_iterate T_unit3 (sr_numberOfSquareRoots r))
    /\ sr_degree r
       = matrix_power_get_pade_degree
           (norm_after T_unit3 (sr_numberOfSquareRoots r)).
Proof.
  assert (Hout : loop_outcome (scaling_loop 9 T_unit3 (scaling_init T_unit3))
                 = Some (6, 3)) by (vm_compute; reflexivity).
  destruct (scaling_loop 9 T_unit3 (scaling_init T_unit3)) as [r |] eqn:Hrun;
    [| discriminate].
  cbn [loop_outcome] in Hout. injection Hout as Hd Hn.
  exists r. split; [reflexivity |]. split; [exact Hn |]. split; [exact Hd |].
  destruct (scaling_loop_result 9 T_unit3 r Hrun) as [_ [Hb [HI [Hdeg _]]]].
  split; [exact Hb |]. split; [exact HI | exact Hdeg].
Defined.

(** X6 on the same run, in double precision: the degree 6 is in the range
    from 3 to 7. *)
Lemma scaling_loop_degree_in_range_unit3 :
  @digits_match_overload Q Qdouble
  /\ exists r,
      scaling_loop 9 T_unit3 (scaling_init T_unit3) = Some r
      /\ 3 <= sr_degree r <= 7.
Proof.
  assert (Hdigits : @digits_match_overload Q Qdouble)
    by (unfold digits_match_overload; cbn; lia).
  split; [exact Hdigits |].
  assert (Hout : loop_outcome (scaling_loop 9 T_unit3 (scaling_init T_unit3))
                 = Some (6, 3)) by (vm_compute; reflexivity).
  destruct (scaling_loop 9 T_unit3 (scaling_init T_unit3)) as [r |] eqn:Hrun;
    [| discriminate].
  exists r. split; [reflexivity |].
  exact (scaling_loop_degree_in_range 9 T_unit3 (scaling_init T_unit3) r
           Hdigits (Q_rltb_rleb KDouble 53) Hrun).
Defined.

(** X7 in double precision at the norm 0.1 and the degree 5, whose threshold
    is 0.1239...: the selected degree is 5. *)
Lemma pade_degree_threshold_test_double :
  @rleb_orders_literals Q Qdouble
  /\ 3 <= 5 <= @maxPadeDegree Q Qdouble
  /\ @matrix_power_get_pade_degree Q Qdouble 0.1%Q = 5
  /\ (@matrix_power_get_pade_degree Q Qdouble 0.1%Q <= 5
      <-> @rleb Q Qdouble 0.1%Q (@pade_threshold Q Qdouble 5) = true).
Proof.
  assert (Hrange : 3 <= 5 <= @maxPadeDegree Q Qdouble) by (cbn; lia).
  split; [apply Q_rleb_orders_literals |]. split; [exact Hrange |].
  split; [reflexivity |].
  exact (@pade_degree_threshold_test Q Qdouble 0.1%Q 5
           (Q_rleb_orders_literals KDouble 53) Hrange).
Defined.

End RationalRuns.

(** ** The cost of binary powering *)

(** [Qfrexp_exponent] is the exponent of [std::frexp]: for [n / d > 0] it
    is the [e] with [2^(e-1) <= n / d < 2^e]. *)
Lemma Qfrexp_exponent_spec (n : Z) (d : positive) :
  (0 < n)%Z ->
  let e := Qfrexp_exponent (n # d) in
  (0 < e -> 2 ^ (e - 1) * Zpos d <= n < 2 ^ e * Zpos d)%Z
  /\ (e <= 0 -> Zpos d <= n * 2 ^ (1 - e) /\ n * 2 ^ (- e) < Zpos d)%Z.
Proof.
  intros Hn. unfold Qfrexp_exponent. cbn [Qnum Qden].
  rewrite (Z.abs_eq n) by lia.
  destruct (Z.eqb_spec n 0) as [| _]; [lia |].
  pose proof (Z.log2_spec n Hn) as [Hn1 Hn2].
  pose proof (Z.log2_spec (Zpos d) (Pos2Z.is_pos d)) as [Hd1 Hd2].
  pose proof (Z.log2_nonneg n) as Ha. pose proof (Z.log2_nonneg (Zpos d)) as Hb.
  set (a := Z.log2 n) in *. set (b := Z.log2 (Zpos d)) in *.
  set (D := Zpos d) in *.
  rewrite Z.pow_succ_r in Hn2, Hd2 by lia.
  assert (Hpa : (0 < 2 ^ a)%Z) by (apply Z.pow_pos_nonneg; lia).
  assert (Hpb : (0 < 2 ^ b)%Z) by (apply Z.pow_pos_nonneg; lia).
  destruct (Z.le_gt_cases 0 (a - b)) as [Hk | Hk].
  - rewrite (Z.max_l (a - b) 0), (Z.max_r (- (a - b)) 0) by lia.
    rewrite Z.pow_0_r, Z.mul_1_r.
    assert (Hpow : (2 ^ a = 2 ^ (a - b) * 2 ^ b)%Z).
    { rewrite <- Z.pow_add_r by lia. f_equal. lia. }
    assert (Hpk : (0 < 2 ^ (a - b))%Z) by (apply Z.pow_pos_nonneg; lia).
    destruct (Z.leb_spec (D * 2 ^ (a - b)) n) as [Ht | Ht]; cbv zeta.
    + split; intros He; [| lia].
      replace (a - b + 1 - 1)%Z with (a - b)%Z by lia.
      rewrite (Z.add_1_r (a - b)), Z.pow_succ_r by lia.
      split; nia.
    + destruct (Z.eq_dec (a - b) 0) as [H0 | Hne].
      * rewrite H0 in Ht, Hpow |- *. rewrite Z.pow_0_r in Ht, Hpow.
        change (1 - 0)%Z with 1%Z. change (- 0)%Z with 0%Z.
        rewrite Z.pow_0_r, Z.pow_1_r.
        split; intros He; lia.
      * split; intros He; [| lia].
        assert (Hp : (2 ^ (a - b) = 2 * 2 ^ (a - b - 1))%Z).
        { rewrite <- (Z.pow_succ_r 2) by lia. f_equal. lia. }
        assert (Hpk' : (0 < 2 ^ (a - b - 1))%Z) by (apply Z.pow_pos_nonneg; lia).
        split; nia.
  - rewrite (Z.max_r (a - b) 0), (Z.max_l (- (a - b)) 0) by lia.
    rewrite Z.pow_0_r, Z.mul_1_r.
    assert (Hpow : (2 ^ b = 2 ^ (- (a - b)) * 2 ^ a)%Z).
    { rewrite <- Z.pow_add_r by lia. f_equal. lia. }
    assert (Hp : (2 ^ (- (a - b)) = 2 * 2 ^ (- (a - b) - 1))%Z).
    { rewrite <- (Z.pow_succ_r 2) by lia. f_equal. lia. }
    assert (Hpk' : (0 < 2 ^ (- (a - b) - 1))%Z) by (apply Z.pow_pos_nonneg; lia).
    destruct (Z.leb_spec D (n * 2 ^ (- (a - b)))) as [Ht | Ht]; cbv zeta.
    + split; intros He; [lia |].
      replace (1 - (a - b + 1))%Z with (- (a - b))%Z by lia.
      replace (- (a - b + 1))%Z with (- (a - b) - 1)%Z by lia.
      split; nia.
    + split; intros He; [lia |].
      replace (1 - (a - b))%Z with (Z.succ (- (a - b)))%Z by lia.
      rewrite Z.pow_succ_r by lia.
      split; nia.
Qed.

Lemma Qfrexp_exponent_below_one (p : Q) :
  (0 <= p)%Q -> (p < 1)%Q -> (Qfrexp_exponent p <= 0)%Z.
Proof.
  destruct p as [n d]. unfold Qle, Qlt. cbn [Qnum Qden]. intros H0 H1.
  destruct (Z.eq_dec n 0) as [-> | Hne]; [cbn; lia |].
  destruct (Qfrexp_exponent_spec n d) as [Hpos _]; [lia |].
  destruct (Z.le_gt_cases (Qfrexp_exponent (n # d)) 0) as [Hle | Hgt];
    [exact Hle |].
  destruct (Hpos Hgt) as [Hlow _].
  assert (0 < 2 ^ (Qfrexp_exponent (n # d) - 1))%Z
    by (apply Z.pow_pos_nonneg; lia).
  nia.
Qed.

Lemma Qfrexp_exponent_from_one (p : Q) :
  (1 <= p)%Q -> Qfrexp_exponent p = (Z.log2 (Qfloor p) + 1)%Z.
Proof.
  destruct p as [n d]. unfold Qle. cbn [Qnum Qden Qfloor]. intros H1.
  destruct (Qfrexp_exponent_spec n d) as [Hpos Hneg]; [lia |].
  set (e := Qfrexp_exponent (n # d)) in *.
  destruct (Z.le_gt_cases e 0) as [Hle | Hgt].
  - destruct (Hneg Hle) as [_ Hup].
    assert (0 < 2 ^ (- e))%Z by (apply Z.pow_pos_nonneg; lia). nia.
  - destruct (Hpos Hgt) as [Hlow Hup].
    enough (Z.log2 (n / Zpos d) = e - 1)%Z by lia.
    apply Z.log2_unique; [lia |].
    replace (Z.succ (e - 1)) with e by lia. split.
    + apply Z.div_le_lower_bound; lia.
    + apply Z.div_lt_upper_bound; lia.
Qed.

Lemma Z_popcount_double (z : Z) :
  (0 <= z)%Z -> Z_popcount (2 * z) = Z_popcount z.
Proof. destruct z; try reflexivity; lia. Qed.

Lemma Z_popcount_succ_double (z : Z) :
  (0 <= z)%Z -> Z_popcount (2 * z + 1) = S (Z_popcount z).
Proof. destruct z; try reflexivity; lia. Qed.

(** Clearing the leading bit removes one bit. *)
Lemma Pos_popcount_clear_leading (q : positive) :
  (0 <= Zpos q - 2 ^ Z.log2 (Zpos q))%Z
  /\ S (Z_popcount (Zpos q - 2 ^ Z.log2 (Zpos q))) = Pos_popcount q.
Proof.
  induction q as [q [IH0 IH] | q [IH0 IH] |].
  - rewrite Pos2Z.inj_xI, Z.log2_succ_double, Z.pow_succ_r
      by (try apply Z.log2_nonneg; lia).
    replace (2 * Zpos q + 1 - 2 * 2 ^ Z.log2 (Zpos q))%Z
      with (2 * (Zpos q - 2 ^ Z.log2 (Zpos q)) + 1)%Z by lia.
    split; [lia |].
    rewrite Z_popcount_succ_double by exact IH0. cbn [Pos_popcount]. lia.
  - rewrite Pos2Z.inj_xO, Z.log2_double, Z.pow_succ_r
      by (try apply Z.log2_nonneg; lia).
    replace (2 * Zpos q - 2 * 2 ^ Z.log2 (Zpos q))%Z
      with (2 * (Zpos q - 2 ^ Z.log2 (Zpos q)))%Z by lia.
    split; [lia |].
    rewrite Z_popcount_double by exact IH0. cbn [Pos_popcount]. exact IH.
  - split; [cbn; lia | reflexivity].
Qed.

Lemma Pos_popcount_pos (q : positive) : 1 <= Pos_popcount q.
Proof. induction q; cbn [Pos_popcount]; lia. Qed.

Lemma Z_popcount_log2 (z : Z) :
  (0 < z)%Z -> (Z.of_nat (Z_popcount z) <= Z.log2 z + 1)%Z.
Proof.
  destruct z as [| q | q]; try lia. intros _.
  induction q as [q IH | q IH |].
  - change (Z_popcount (Zpos q~1)) with (S (Z_popcount (Zpos q))).
    rewrite Pos2Z.inj_xI, Z.log2_succ_double by lia. lia.
  - change (Z_popcount (Zpos q~0)) with (Z_popcount (Zpos q)).
    rewrite Pos2Z.inj_xO, Z.log2_double by lia. lia.
  - cbn. lia.
Qed.

Lemma Qfloor_minus_Z (p : Q) (z : Z) :
  Qfloor (p - inject_Z z) = (Qfloor p - z)%Z.
Proof.
  destruct p as [n d]. cbn [Qminus Qplus Qopp inject_Z Qnum Qden Qfloor].
  rewrite Pos.mul_1_r, Z.mul_1_r.
  replace (n + - z * Zpos d)%Z with (n + (- z) * Zpos d)%Z by lia.
  rewrite Z.div_add by lia. lia.
Qed.

(** [ldexp(0.5, e)] is the power of two [2^(e-1)]. *)
Lemma Qldexp_half (e : Z) :
  (0 < e)%Z -> (Qldexp 0.5 e == inject_Z (2 ^ (e - 1)))%Q.
Proof.
  intros He. unfold Qldexp.
  change 2%Q with (inject_Z 2). rewrite <- Zpower_Qpower by lia.
  replace e with (Z.succ (e - 1)) at 1 by lia.
  rewrite Z.pow_succ_r by lia.
  unfold Qeq. cbn [Qmult inject_Z Qnum Qden]. lia.
Qed.

Section BinaryPoweringProperties.
Variables (kind : FloatKind) (width : Z).

(** The loop removes the leading bit of the integer part of [p] at each
    pass. *)
Lemma binary_powering_loop_counts :
  forall (fuel : nat) (p : Q) (applyings : Z),
    (0 <= p)%Q -> Z_popcount (Qfloor p) < fuel ->
    @binary_powering_loop Q (QRealOps kind width) QFrexpOps fuel p applyings
    = Some (applyings + Z.of_nat (Z_popcount (Qfloor p)))%Z.
Proof.
  induction fuel as [| fuel IH]; intros p applyings Hp Hfuel; [lia |].
  cbn [binary_powering_loop frexp_exponent QFrexpOps rsub ldexp lit QRealOps].
  destruct (Qlt_le_dec p 1) as [Hlt | Hge].
  - pose proof (Qfrexp_exponent_below_one p Hp Hlt) as He.
    destruct (Z.ltb_spec 0 (Qfrexp_exponent p)); [lia |].
    assert (Hfl : Qfloor p = 0%Z).
    { pose proof (Qfloor_le p) as Hl. pose proof (Qlt_floor p) as Hu.
      assert (0 <= Qfloor p)%Z.
      { rewrite <- (Qfloor_Z 0). apply Qfloor_resp_le. exact Hp. }
      assert (Qfloor p < 1)%Z.
      { rewrite Zlt_Qlt. eapply Qle_lt_trans; [exact Hl | exact Hlt]. }
      lia. }
    rewrite Hfl. cbn. f_equal. lia.
  - rewrite (Qfrexp_exponent_from_one p Hge).
    assert (Hm : (1 <= Qfloor p)%Z).
    { rewrite <- (Qfloor_Z 1). apply Qfloor_resp_le. exact Hge. }
    pose proof (Z.log2_nonneg (Qfloor p)) as Hl.
    destruct (Z.ltb_spec 0 (Z.log2 (Qfloor p) + 1)); [| lia].
    set (l := Z.log2 (Qfloor p)) in *.
    assert (Heq : (p - Qldexp 0.5 (l + 1) == p - inject_Z (2 ^ l))%Q).
    { rewrite Qldexp_half by lia. replace (l + 1 - 1)%Z with l by lia.
      reflexivity. }
    assert (Hfloor : Qfloor (p - Qldexp 0.5 (l + 1)) = (Qfloor p - 2 ^ l)%Z).
    { rewrite (Qfloor_comp _ _ Heq). apply Qfloor_minus_Z. }
    destruct (Qfloor p) as [| q | q] eqn:Hq; try lia.
    destruct (Pos_popcount_clear_leading q) as [Hnonneg Hcount].
    fold l in Hnonneg, Hcount.
    rewrite IH.
    + rewrite Hfloor. f_equal. cbn [Z_popcount] in *. lia.
    + rewrite Heq. pose proof (Qfloor_le p) as Hle. rewrite Hq in Hle.
      assert (inject_Z (2 ^ l) <= inject_Z (Zpos q))%Q
        by (rewrite <- Zle_Qle; lia).
      lra.
    + rewrite Hfloor. cbn [Z_popcount] in *. lia.
Qed.

(** X8: for an exponent [p >= 1], in exact binary arithmetic (the
    subtraction of the leading power of two is exact in floating point as
    well), [binary_powering_cost] terminates, returns the number of one bits
    of the integer part of [p] and leaves in [*squarings] the position of
    its leading bit, [floor(log2 p)]; the number returned is at least 1 and
    at most [*squarings + 1].  The loop makes one pass per one bit. *)
Theorem binary_powering_cost_counts_bits (p : Q) (fuel : nat) :
  (1 <= p)%Q -> Z_popcount (Qfloor p) < fuel ->
  @binary_powering_cost Q (QRealOps kind width) QFrexpOps fuel p
  = Some (Z.of_nat (Z_popcount (Qfloor p)), Z.log2 (Qfloor p))
  /\ (1 <= Z.of_nat (Z_popcount (Qfloor p)) <= Z.log2 (Qfloor p) + 1)%Z.
Proof.
  intros Hp Hfuel. unfold binary_powering_cost.
  rewrite binary_powering_loop_counts by (try lra; exact Hfuel).
  cbn [frexp_exponent QFrexpOps]. rewrite (Qfrexp_exponent_from_one p Hp).
  assert (Hm : (1 <= Qfloor p)%Z).
  { rewrite <- (Qfloor_Z 1). apply Qfloor_resp_le. exact Hp. }
  split; [f_equal; f_equal; lia |].
  split; [| apply Z_popcount_log2; lia].
  destruct (Qfloor p) as [| q | q]; try lia.
  cbn [Z_popcount]. pose proof (Pos_popcount_pos q). lia.
Qed.

(** X9: for an exponent [0 <= p < 1], [binary_powering_cost] returns 0 at
    the first test of its loop and leaves a negative number in
    [*squarings]. *)
Theorem binary_powering_cost_below_one (p : Q) (fuel : nat) :
  (0 <= p)%Q -> (p < 1)%Q ->
  exists squarings,
    @binary_powering_cost Q (QRealOps kind width) QFrexpOps (S fuel) p
    = Some (0%Z, squarings)
    /\ (squarings < 0)%Z.
Proof.
  intros H0 H1. unfold binary_powering_cost.
  cbn [binary_powering_loop frexp_exponent QFrexpOps].
  pose proof (Qfrexp_exponent_below_one p H0 H1) as He.
  destruct (Z.ltb_spec 0 (Qfrexp_exponent p)); [lia |].
  eexists. split; [reflexivity | lia].
Qed.

End BinaryPoweringProperties.

(** X8 at [p = 11.75]: the integer part 11 is 1011 in binary, three
    applications and three squarings. *)
Lemma binary_powering_cost_11_75 :
  (1 <= 11.75)%Q
  /\ Z_popcount (Qfloor 11.75%Q) < 4
  /\ @binary_powering_cost Q Qdouble QFrexpOps 4 11.75%Q = Some (3%Z, 3%Z).
Proof.
  assert (Hp : (1 <= 11.75)%Q) by (apply Qle_bool_iff; reflexivity).
  assert (Hfuel : Z_popcount (Qfloor 11.75%Q) < 4) by (vm_compute; lia).
  split; [exact Hp |]. split; [exact Hfuel |].
  exact (proj1 (binary_powering_cost_counts_bits KDouble 53 11.75%Q 4 Hp Hfuel)).
Defined.

(** X9 at [p = 0.3]: no application, and [*squarings] is -2. *)
Lemma binary_powering_cost_0_3 :
  (0 <= 0.3)%Q /\ (0.3 < 1)%Q
  /\ exists squarings,
      @binary_powering_cost Q Qdouble QFrexpOps 1 0.3%Q = Some (0%Z, squarings)
      /\ (squarings < 0)%Z.
Proof.
  assert (H0 : (0 <= 0.3)%Q) by (apply Qle_bool_iff; reflexivity).
  assert (H1 : (0.3 < 1)%Q) by reflexivity.
  split; [exact H0 |]. split; [exact H1 |].
  exact (binary_powering_cost_below_one KDouble 53 0.3%Q 0 H0 H1).
Defined.

(** ** Runs over the reals with back substitution *)

Lemma Rle_dec_true (a b : R) :
  (a <= b)%R -> (if Rle_dec a b then true else false) = true.
Proof. intros H. destruct (Rle_dec a b); [reflexivity | contradiction]. Qed.

Lemma Rlt_dec_true (a b : R) :
  (a < b)%R -> (if Rlt_dec a b then true else false) = true.
Proof. intros H. destruct (Rlt_dec a b); [reflexivity | contradiction]. Qed.

(** Turns the value of a decimal literal into a quotient of integers. *)
Ltac Q2R_literal :=
  match goal with
  | |- context [Q2R ?q] =>
      let q' := eval vm_compute in q in
      change (Q2R q) with (Q2R q'); unfold Q2R; cbn [Qnum Qden]
  end.

Section RealRuns.
Local Existing Instances RRealOps RScalarOps RElementaryOps R_solver R_square_root.

Lemma near_identity_norm :
  colsum_norm (msub (Identity 3 3) (upper A_near_identity)) = (1 / 100)%R.
Proof.
  unfold colsum_norm, colwise_abs_sum, rmaxCoeff, rsum.
  cbn [rows cols msub Identity upper coeff seq map fold_left Nat.eqb Nat.ltb Nat.leb
       A_near_identity matrix3
       sabs ssub s_of_int radd rltb RScalarOps RRealOps].
  unfold Rabs.
  repeat destruct (Rcase_abs _); repeat destruct (Rlt_dec _ _); lra.
Qed.

(** In double precision a norm of at most 0.0188 selects degree 3. *)
Lemma pade_degree_R_small (n : R) :
  (n <= 188 / 10000)%R -> matrix_power_get_pade_degree n = 3.
Proof.
  intros Hn. unfold matrix_power_get_pade_degree, pade_degree_for, maxPadeDegree,
    maxNormForPade_table.
  cbn [float_kind RRealOps Nat.add Nat.sub pade_degree_loop maxNormForPade_double
       map nth lit rleb].
  rewrite Rle_dec_true; [reflexivity |].
  Q2R_literal. lra.
Qed.

(** The first pass on [A_near_identity] stops: the norm is 0.01 and both
    degrees are 3. *)
Lemma near_identity_step :
  scaling_step A_near_identity (scaling_init A_near_identity)
  = Break {| sr_degree := 3;
             sr_IminusT := msub (Identity 3 3) (upper A_near_identity);
             sr_numberOfSquareRoots := 0 |}.
Proof.
  unfold scaling_step, scaling_init.
  cbn [st_T st_hasExtraSquareRoot st_numberOfSquareRoots].
  change (rows A_near_identity) with 3. change (cols A_near_identity) with 3.
  rewrite near_identity_norm.
  assert (Hthr : rltb (1 / 100)%R computeBig_maxNormForPade = true).
  { unfold computeBig_maxNormForPade.
    cbn [digits RRealOps rltb lit Z.leb Z.compare Pos.compare Pos.compare_cont].
    apply Rlt_dec_true. Q2R_literal. lra. }
  rewrite Hthr.
  rewrite (pade_degree_R_small (1 / 100)) by lra.
  rewrite (pade_degree_R_small (rdiv (1 / 100)%R (of_int 2)))
    by (cbn [rdiv of_int RRealOps]; lra).
  reflexivity.
Qed.

Lemma near_identity_computeBig (p : R) :
  computeBig 1 A_near_identity p
  = Some (compute2x2 A_near_identity
            (computePade 3 (msub (Identity 3 3) (upper A_near_identity)) p) p).
Proof.
  unfold computeBig. cbn [scaling_loop]. rewrite near_identity_step.
  reflexivity.
Qed.

(** X3 at a 3 x 3 input and the same input with 7, 8, 9 below the
    diagonal. *)
Lemma compute_ignores_lower_part_near_identity :
  same_upper_part A_near_identity A_near_identity_filled
  /\ coeff A_near_identity 1 0 <> coeff A_near_identity_filled 1 0
  /\ compute 1 A_near_identity zero3 2%R
     = compute 1 A_near_identity_filled zero3 2%R.
Proof.
  assert (Hsame : same_upper_part A_near_identity A_near_identity_filled).
  { split; [reflexivity |]. split; [reflexivity |].
    intros [| [| [| i]]] [| [| [| j]]] Hij; try reflexivity; lia. }
  split; [exact Hsame |]. split; [cbn; lra |].
  exact (compute_ignores_lower_part 1 A_near_identity A_near_identity_filled
           zero3 2%R Hsame).
Defined.

(** X5 at a 3 x 3 input on which the loop stops at its first pass. *)
Lemma computeBig_band_near_identity :
  let output :=
    compute2x2 A_near_identity
      (computePade 3 (msub (Identity 3 3) (upper A_near_identity)) 2%R) 2%R in
  computeBig 1 A_near_identity 2%R = Some output
  /\ forall (res : Matrix R) (r c : nat),
      (c = r \/ c = S r) -> c <= cols A_near_identity - 1 ->
      coeff output r c = coeff (compute2x2 A_near_identity res 2%R) r c.
Proof.
  cbv zeta. split; [apply near_identity_computeBig |].
  exact (computeBig_band 1 A_near_identity _ 2%R (near_identity_computeBig 2%R)).
Defined.

(** X11 at the same input: the entry [(1,1)] of the result is [pow(1, 2)]. *)
Lemma compute_diagonal_powers_near_identity :
  let output :=
    compute2x2 A_near_identity
      (computePade 3 (msub (Identity 3 3) (upper A_near_identity)) 2%R) 2%R in
  rows A_near_identity = cols A_near_identity
  /\ compute 1 A_near_identity zero3 2%R = Some output
  /\ 1 < rows A_near_identity
  /\ coeff output 1 1 = Rpower 1 2.
Proof.
  cbv zeta.
  assert (Hrun : compute 1 A_near_identity zero3 2%R
                 = Some (compute2x2 A_near_identity
                           (computePade 3 (msub (Identity 3 3)
                                                (upper A_near_identity)) 2%R)
                           2%R))
    by apply near_identity_computeBig.
  assert (Hk : 1 < rows A_near_identity) by (cbn; lia).
  split; [reflexivity |]. split; [exact Hrun |]. split; [exact Hk |].
  exact (compute_diagonal_powers 1 A_near_identity zero3 _ 2%R 1
           eq_refl Hrun Hk).
Defined.

Lemma ssum_zero (l : list R) :
  (forall x, In x l -> x = 0%R) -> ssum l = 0%R.
Proof.
  destruct l as [| x l]; intros Hl; [reflexivity |].
  cbn [ssum]. rewrite (Hl x) by (left; reflexivity).
  assert (Htail : forall y, In y l -> y = 0%R)
    by (intros y Hy; apply Hl; right; exact Hy).
  clear Hl. induction l as [| y l IH]; [reflexivity |].
  cbn [fold_left sadd RScalarOps].
  rewrite (Htail y) by (left; reflexivity).
  rewrite Rplus_0_r. apply IH. intros z Hz. apply Htail. right. exact Hz.
Qed.

(** Back substitution with a zero right-hand side and a unit diagonal
    gives zero: every quotient is [0 / 1]. *)
Lemma back_substitution_zero (U B : Matrix R) :
  (forall i, coeff U i i = 1%R) ->
  (forall i j, coeff B i j = 0%R) ->
  forall k r c, back_substitution_rows U B k r c = 0%R.
Proof.
  intros HU HB. induction k as [| k IH]; intros r c; [reflexivity |].
  cbn [back_substitution_rows].
  destruct (r =? rows U - S k)%nat; [| apply IH].
  rewrite HB, HU, ssum_zero.
  - cbn [sdiv ssub RScalarOps]. lra.
  - intros x Hx. apply in_map_iff in Hx. destruct Hx as [l [<- _]].
    rewrite IH. cbn [smul RScalarOps]. lra.
Qed.

Lemma computePade_loop_zero (X : Matrix R) (p : R) :
  (forall i j, coeff X i j = 0%R) ->
  forall n res,
    rows res = rows X -> cols res = cols X ->
    (forall i j, coeff res i j = 0%R) ->
    rows (computePade_loop X p n res) = rows X
    /\ cols (computePade_loop X p n res) = cols X
    /\ forall i j, coeff (computePade_loop X p n res) i j = 0%R.
Proof.
  intros HX. induction n as [| n IH]; intros res Hr Hc Hres.
  - split; [exact Hr |]. split; [exact Hc | exact Hres].
  - cbn [computePade_loop]. apply IH; try reflexivity.
    intros i j. cbn [triangularSolve R_solver back_substitution coeff].
    apply back_substitution_zero.
    + intros l. cbn [upper madd Identity coeff].
      rewrite Nat.ltb_irrefl, Nat.eqb_refl, Hres.
      cbn [sadd s_of_int RScalarOps]. lra.
    + intros l m. cbn [mscale coeff]. rewrite HX. cbn [rsmul RScalarOps]. lra.
Qed.



End RealRuns.

(** ** The long double thresholds as stored *)

(** Rounding a literal to long double first (64, 106 or 113 bits) and then
    to [double], as the initialisation of the array does, gives the [double]
    nearest to the literal: none of the literals is rounded twice to
    another value. *)
Lemma long_double_thresholds_rounded_once :
  forallb (fun q => Qeq_bool (Qto_double (Qround_binary 64 q)) (Qto_double q))
          maxNormForPade_extended_literals = true
  /\ forallb (fun q => Qeq_bool (Qto_double (Qround_binary 106 q)) (Qto_double q))
             maxNormForPade_double_double_literals = true
  /\ forallb (fun q => Qeq_bool (Qto_double (Qround_binary 113 q)) (Qto_double q))
             maxNormForPade_quad_literals = true.
Proof. repeat split; vm_compute; reflexivity. Qed.

Lemma Q_rleb_false (k : FloatKind) (d : Z) (n t : Q) :
  (t < n)%Q -> @rleb Q (QRealOps k d) n t = false.
Proof.
  intros Hlt. cbn. apply Qle_bool_lt_false. exact Hlt.
Qed.

Lemma Q_rltb_true (k : FloatKind) (d : Z) (n t : Q) :
  (n < t)%Q -> @rltb Q (QRealOps k d) n t = true.
Proof.
  intros Hlt. cbn. apply negb_true_iff. apply Qle_bool_lt_false. exact Hlt.
Qed.



(** ** A run in IEEE double arithmetic *)

Section FloatRun.
Local Existing Instances FRealOps FScalarOps F_square_root.

(** The square root of a matrix of NaN is a matrix of NaN. *)
Lemma nan_upper3_sqrt (T : Matrix PrimFloat.float) :
  nan_upper3 T -> nan_upper3 (upper (sqrtTriangular T)).
Proof.
  intros [Hr [Hc Hn]]. split; [exact Hr |]. split; [exact Hc |].
  intros i j Hij.
  cbn [sqrtTriangular F_square_root triangular_sqrt upper coeff rows cols].
  rewrite Hr. cbn [Nat.sub].
  destruct i as [| [| [| i]]]; destruct j as [| [| [| j]]]; try lia;
    cbn [Nat.ltb Nat.leb triangular_sqrt_entries Nat.eqb Nat.add seq map ssum
         fold_left];
    rewrite ?(Hn 0 0), ?(Hn 0 1), ?(Hn 0 2), ?(Hn 1 1), ?(Hn 1 2), ?(Hn 2 2) by lia;
    reflexivity.
Qed.

(** Its distance to the identity has a NaN norm. *)
Lemma nan_upper3_norm (T : Matrix PrimFloat.float) :
  nan_upper3 (upper T) ->
  colsum_norm (msub (Identity 3 3) (upper T)) = PrimFloat.nan.
Proof.
  intros [Hr [Hc Hn]].
  unfold colsum_norm, colwise_abs_sum, rmaxCoeff, rsum.
  cbn [rows cols msub Identity coeff seq map fold_left].
  rewrite (Hn 0 0), (Hn 0 1), (Hn 0 2), (Hn 1 1), (Hn 1 2), (Hn 2 2) by lia.
  vm_compute. reflexivity.
Qed.

(** The first square root of [-I] has [sqrt(-1)], NaN, on its diagonal. *)
Lemma minus_identity_after_one :
  nan_upper3 (sqrt_iterate F_minus_identity 1).
Proof.
  split; [reflexivity |]. split; [reflexivity |].
  intros i j Hij.
  destruct i as [| [| [| i]]]; destruct j as [| [| [| j]]]; try lia;
    vm_compute; reflexivity.
Qed.

Lemma minus_identity_nan (k : nat) :
  nan_upper3 (sqrt_iterate F_minus_identity (S k)).
Proof.
  induction k as [| k IH]; [exact minus_identity_after_one |].
  change (sqrt_iterate F_minus_identity (S (S k)))
    with (upper (sqrtTriangular (sqrt_iterate F_minus_identity (S k)))).
  apply nan_upper3_sqrt. exact IH.
Qed.

Lemma minus_identity_norm (k : nat) :
  norm_after F_minus_identity (S k) = PrimFloat.nan.
Proof.
  unfold norm_after.
  change (rows F_minus_identity) with 3. change (cols F_minus_identity) with 3.
  change (sqrt_iterate F_minus_identity (S k))
    with (upper (sqrtTriangular (sqrt_iterate F_minus_identity k))).
  apply nan_upper3_norm. exact (minus_identity_nan k).
Qed.

Lemma minus_identity_never_below (k : nat) :
  below_threshold F_minus_identity k = false.
Proof.
  destruct k as [| k]; [vm_compute; reflexivity |].
  unfold below_threshold. rewrite minus_identity_norm.
  vm_compute. reflexivity.
Qed.


End FloatRun.
